(** * Constant-modulus residues of crypto-bigint with the RISC Zero accelerator

    A shallow embedding of [src/risc0.rs], [src/uint/modular/constant_mod.rs],
    [src/uint/modular/repr.rs] and [src/uint/modular/inv.rs].

    A [Uint<LIMBS>] is modelled by its value, an integer in
    [0, 2^(LIMBS * Limb::BITS)); where the code works on the words of a
    [Uint] (the accelerator shim) or on its bytes (serialization), the
    little-endian digit list is modelled as a [list Z]. *)

From Stdlib Require Import ZArith Lia List Bool Znumtheory Setoid Morphisms.
From Stdlib Require String.
Import ListNotations.
Open Scope Z_scope.

(** ** Little-endian digit lists *)
Module Words.

(** Value of a little-endian list of [bits]-bit digits ([Uint::from_words],
    [Uint::from_le_bytes]). *)
Fixpoint le_value (bits : Z) (ds : list Z) : Z :=
  match ds with
  | [] => 0
  | d :: ds' => d + 2 ^ bits * le_value bits ds'
  end.

(** The [k] low digits of [v] ([Uint::as_words], [Uint::to_le_bytes]). *)
Fixpoint to_le (bits : Z) (k : nat) (v : Z) : list Z :=
  match k with
  | O => []
  | S k' => v mod 2 ^ bits :: to_le bits k' (v / 2 ^ bits)
  end.

(** A well-formed digit list: [k] digits, each in [0, 2^bits). *)
Definition digits_ok (bits : Z) (k : nat) (ds : list Z) : Prop :=
  length ds = k /\ Forall (fun d => 0 <= d < 2 ^ bits) ds.

End Words.

(** ** The accelerator shim ([src/risc0.rs]) *)
Module Risc0.
Import Words.

(** RISC Zero supports BigInt operations with a width of 256 bits as 8x32-bit words. *)
Definition BIGINT_WIDTH_WORDS : nat := 8.
Definition OP_MULTIPLY : Z := 0.

(** One [sys_bigint] invocation: the opcode and the three input buffers
    (each a list of [u32] words). *)
Record call := mk_call {
  c_op : Z;
  c_x : list Z;
  c_y : list Z;
  c_modulus : list Z
}.

(** The outcome of a shim function together with the [sys_bigint] calls it
    made, in order.  [Panic] is a failed [assert!]: the guest aborts. *)
Inductive outcome (A : Type) : Type :=
| Panic (calls : list call)
| Ret (calls : list call) (v : A).
Arguments Panic {A} calls.
Arguments Ret {A} calls v.

(** The host that answers [sys_bigint]: from the opcode and the input buffers
    it determines the contents of the 256-bit [out] buffer.  The guest does
    not trust it. *)
Definition host := Z -> list Z -> list Z -> list Z -> Z.

(** Modelled from the spec: the host side of the [sys_bigint] system call,
    which is not part of this repository (spec 4.5 and 6): it writes
    [x * y mod modulus] into [out], or, for an all-zero modulus, the
    unreduced product. *)
Definition sys_bigint_spec : host := fun _ x y modulus =>
  let prod := le_value 32 x * le_value 32 y in
  if le_value 32 modulus =? 0 then prod else prod mod le_value 32 modulus.

(** [sys_bigint(out, op, x, y, modulus); out.assume_init()]: the eight
    [u32] words the host wrote. *)
Definition sys_bigint (h : host) (op : Z) (x y modulus : list Z) : list Z :=
  to_le 32 BIGINT_WIDTH_WORDS (h op x y modulus).

(** [modmul_u256]: width assertion, one system call, canonical-range
    assertion [result.ct_lt(modulus)]. *)
Definition modmul_u256 (h : host) (LIMBS : nat) (a b modulus : list Z)
  : outcome (list Z) :=
  if negb (Nat.eqb LIMBS BIGINT_WIDTH_WORDS) then Panic [] else
  let c := mk_call OP_MULTIPLY a b modulus in
  let result := sys_bigint h OP_MULTIPLY a b modulus in
  if le_value 32 result <? le_value 32 modulus then Ret [c] result
  else Panic [c].

(** [mul_wide_u128]: width assertion, zero-extension of both operands to
    eight words ([a_pad[..LIMBS].copy_from_slice(a.as_words())]), one system
    call with an all-zero modulus, and [result.split_at(LIMBS)]. *)
Definition mul_wide_u128 (h : host) (LIMBS : nat) (a b : list Z)
  : outcome (list Z * list Z) :=
  if negb (Nat.eqb LIMBS (BIGINT_WIDTH_WORDS / 2)) then Panic [] else
  let a_pad := a ++ skipn LIMBS (repeat 0 BIGINT_WIDTH_WORDS) in
  let b_pad := b ++ skipn LIMBS (repeat 0 BIGINT_WIDTH_WORDS) in
  let zero := repeat 0 BIGINT_WIDTH_WORDS in
  let result := sys_bigint h OP_MULTIPLY a_pad b_pad zero in
  Ret [mk_call OP_MULTIPLY a_pad b_pad zero]
      (firstn LIMBS result, skipn LIMBS result).

End Risc0.

(** ** Montgomery arithmetic ([src/uint/modular]) *)
Module Modular.
Import Words.

(** [ResidueParams]: the constant bundle of one modulus. *)
Record ResidueParams := mk_params {
  MODULUS : Z;
  R : Z;
  R2 : Z;
  R3 : Z;
  MOD_NEG_INV : Z
}.

(** The contract of the parameter-derivation facility (spec 3): the modulus
    is odd and fits in [LIMBS] limbs of [w] bits, [R = 2^(w*LIMBS) mod MODULUS],
    [R2 = R^2 mod MODULUS], [R3 = R^3 mod MODULUS], and [MOD_NEG_INV] is the
    limb [-(MODULUS^-1) mod 2^w]. *)
Definition params_okb (w : Z) (LIMBS : nat) (p : ResidueParams) : bool :=
  let M := MODULUS p in
  Z.odd M && (0 <? M) && (M <? 2 ^ (w * Z.of_nat LIMBS)) &&
  (R p =? 2 ^ (w * Z.of_nat LIMBS) mod M) &&
  (R2 p =? R p ^ 2 mod M) && (R3 p =? R p ^ 3 mod M) &&
  (0 <=? MOD_NEG_INV p) && (MOD_NEG_INV p <? 2 ^ w) &&
  ((M * MOD_NEG_INV p + 1) mod 2 ^ w =? 0).

(** [Uint::mul_wide]: the double-width product as its [(lo, hi)] halves. *)
Definition mul_wide (w : Z) (LIMBS : nat) (a b : Z) : Z * Z :=
  let prod := a * b in
  (prod mod 2 ^ (w * Z.of_nat LIMBS), prod / 2 ^ (w * Z.of_nat LIMBS)).

(** The [LIMBS] rounds of REDC: the multiplier [u] is the current low limb
    times [MOD_NEG_INV] modulo [2^w]; adding [u * modulus] clears the low limb,
    which is then shifted out. *)
Fixpoint redc_rounds (w modulus mod_neg_inv : Z) (k : nat) (t : Z) : Z :=
  match k with
  | O => t
  | S k' =>
      let u := (t mod 2 ^ w) * mod_neg_inv mod 2 ^ w in
      redc_rounds w modulus mod_neg_inv k' ((t + u * modulus) / 2 ^ w)
  end.

(** Modelled from the spec: [montgomery_reduction]
    ([src/uint/modular/reduction.rs], not part of this snapshot), the REDC
    kernel of spec 4.2: [LIMBS] rounds, then one conditional subtraction of
    the modulus. *)
Definition montgomery_reduction (w : Z) (LIMBS : nat) (lower_upper : Z * Z)
  (modulus mod_neg_inv : Z) : Z :=
  let (lower, upper) := lower_upper in
  let t := redc_rounds w modulus mod_neg_inv LIMBS
             (lower + upper * 2 ^ (w * Z.of_nat LIMBS)) in
  if modulus <=? t then t - modulus else t.

(** Modelled from the spec: the helper [div_by_2]
    ([src/uint/modular/div_by_2.rs], not part of this snapshot), as the doc
    comment of [Residue::div_by_2] states it: [x / 2] for even [x], and
    [(x + p) / 2] for odd [x]. *)
Definition div_by_2 (a modulus : Z) : Z :=
  if Z.odd a then (a + modulus) / 2 else a / 2.

(** Euclid's algorithm on [(r0, r1)], tracking for each remainder its
    coefficient [s] with [r = s * x (mod modulus)]. *)
Fixpoint xeuclid (fuel : nat) (r0 s0 r1 s1 : Z) : Z * Z :=
  match fuel with
  | O => (r0, s0)
  | S f =>
      if r1 =? 0 then (r0, s0)
      else xeuclid f r1 s1 (r0 mod r1) (s0 - r0 / r1 * s1)
  end.

(** Modelled from the spec: [Uint::inv_odd_mod] (not part of this snapshot),
    the extended-Euclidean routine of spec 4.4: a candidate inverse and a flag
    that holds iff [gcd(x, modulus) = 1]. *)
Definition inv_odd_mod (x modulus : Z) : Z * bool :=
  let (g, s) := xeuclid (S (Z.to_nat (2 * Z.log2 modulus)))
                  modulus 0 (x mod modulus) 1 in
  (s mod modulus, g =? 1).

(** Modelled from the spec: [mul_montgomery_form]
    ([src/uint/modular/mul.rs], not part of this snapshot) on the software
    path: REDC of the double-width product (spec 4.2). *)
Definition mul_montgomery_form (w : Z) (LIMBS : nat) (a b modulus mod_neg_inv : Z)
  (_r_inv : Z) : Z :=
  montgomery_reduction w LIMBS (mul_wide w LIMBS a b) modulus mod_neg_inv.

(** Modelled from the spec: [Uint::add_mod], [Uint::sub_mod] and
    [Uint::neg_mod] (not part of this snapshot), the modular addition,
    subtraction and negation of reduced operands that [Residue]'s [+], [-]
    and unary [-] apply to the stored values (spec 4.6). *)
Definition add_mod (a b modulus : Z) : Z :=
  if modulus <=? a + b then a + b - modulus else a + b.

Definition sub_mod (a b modulus : Z) : Z :=
  if a <? b then a - b + modulus else a - b.

Definition neg_mod (a modulus : Z) : Z := sub_mod 0 a modulus.

(** The build target: the [sys_bigint] host, whether the target is
    [target_os = "zkvm", target_arch = "riscv32"], the number of limbs and
    [Limb::BITS]. *)
Record Target := mk_target {
  host : Risc0.host;
  zkvm : bool;
  LIMBS : nat;
  LIMB_BITS : Z
}.

(** [#[cfg(all(target_os = "zkvm", target_arch = "riscv32"))] if LIMBS == 8]:
    the accelerated path. *)
Definition accelerated (t : Target) : bool :=
  zkvm t && Nat.eqb (LIMBS t) Risc0.BIGINT_WIDTH_WORDS.

(** Size of a [Uint<LIMBS>]: its values are [0 <= v < uint_bound t]. *)
Definition uint_bound (t : Target) : Z := 2 ^ (LIMB_BITS t * Z.of_nat (LIMBS t)).

(** [risc0::modmul_uint_256], as [constant_mod.rs] calls it (the shim of
    [risc0.rs] defines it under the name [modmul_u256]): the words of the
    operands go to [modmul_u256]; [None] is the guest aborting. *)
Definition modmul_uint_256 (t : Target) (a b modulus : Z) : option Z :=
  match Risc0.modmul_u256 (host t) (LIMBS t) (to_le 32 (LIMBS t) a)
          (to_le 32 (LIMBS t) b) (to_le 32 (LIMBS t) modulus) with
  | Risc0.Ret _ r => Some (le_value 32 r)
  | Risc0.Panic _ => None
  end.

(** [into_montgomery_form] ([repr.rs]). *)
Definition into_montgomery_form (t : Target) (a r2 modulus mod_neg_inv : Z)
  (_r : Z) : Z :=
  if accelerated t then a
  else montgomery_reduction (LIMB_BITS t) (LIMBS t)
         (mul_wide (LIMB_BITS t) (LIMBS t) a r2) modulus mod_neg_inv.

(** [from_montgomery_form] ([repr.rs]). *)
Definition from_montgomery_form (t : Target) (a modulus mod_neg_inv : Z)
  (_r_inv : Z) : Z :=
  if accelerated t then a
  else montgomery_reduction (LIMB_BITS t) (LIMBS t) (a, 0) modulus mod_neg_inv.

(** [inv_montgomery_form] ([inv.rs]). *)
Definition inv_montgomery_form (t : Target) (x modulus r3 mod_neg_inv r_inv : Z)
  : Z * bool :=
  let (inverse, is_some) := inv_odd_mod x modulus in
  if accelerated t then (inverse, is_some)
  else (mul_montgomery_form (LIMB_BITS t) (LIMBS t) inverse r3 modulus
          mod_neg_inv r_inv, is_some).

(** A target the claims are stated for: the host answers [sys_bigint] as
    specified, limbs are 32 or 64 bits wide (32 on the zkVM, a [riscv32]
    target), and there is at least one limb. *)
Definition target_ok (t : Target) : Prop :=
  host t = Risc0.sys_bigint_spec /\ (LIMB_BITS t = 32 \/ LIMB_BITS t = 64) /\
  (1 <= LIMBS t)%nat /\ (zkvm t = true -> LIMB_BITS t = 32).

(** Congruence modulo [M], the relation the correctness lemmas rewrite with. *)
Definition cong (M a b : Z) : Prop := a mod M = b mod M.

End Modular.

(** ** Residues with a constant modulus ([constant_mod.rs]) *)
Module ConstMod.
Import Words Modular String.

(** [Residue<MOD, LIMBS>]: the stored [montgomery_form]; the phantom binding
    to [MOD] is the [ResidueParams] argument of the operations. *)
Record Residue := mk_residue { montgomery_form : Z }.

Definition ZERO : Residue := mk_residue 0.

(** [ONE]: [Uint::ONE] on the accelerated path, [MOD::R] otherwise. *)
Definition ONE (t : Target) (p : ResidueParams) : Residue :=
  if accelerated t then mk_residue 1 else mk_residue (R p).

(** [Residue::new]; [None] is the guest aborting in the shim. *)
Definition new (t : Target) (p : ResidueParams) (integer : Z) : option Residue :=
  if accelerated t then
    option_map mk_residue (modmul_uint_256 t integer 1 (MODULUS p))
  else
    let product := mul_wide (LIMB_BITS t) (LIMBS t) integer (R2 p) in
    Some (mk_residue (montgomery_reduction (LIMB_BITS t) (LIMBS t) product
                        (MODULUS p) (MOD_NEG_INV p))).

(** [Residue::retrieve]. *)
Definition retrieve (t : Target) (p : ResidueParams) (r : Residue) : Z :=
  if accelerated t then montgomery_form r
  else montgomery_reduction (LIMB_BITS t) (LIMBS t) (montgomery_form r, 0)
         (MODULUS p) (MOD_NEG_INV p).

(** [Residue::div_by_2]. *)
Definition div_by_2 (p : ResidueParams) (r : Residue) : Residue :=
  mk_residue (Modular.div_by_2 (montgomery_form r) (MODULUS p)).

(** [ConditionallySelectable::conditional_select]: [b] when [choice] is set. *)
Definition conditional_select (a b : Residue) (choice : bool) : Residue :=
  mk_residue (if choice then montgomery_form b else montgomery_form a).

(** [ConstantTimeEq::ct_eq]. *)
Definition ct_eq (a b : Residue) : bool :=
  montgomery_form a =? montgomery_form b.

(** Modelled from the spec: the [Encoding] of a [Uint<LIMBS>] that serde
    uses (an external collaborator, spec 6), the fixed-width little-endian
    bytes of the value. *)
Definition nbytes (t : Target) : nat := (LIMBS t * Z.to_nat (LIMB_BITS t / 8))%nat.

Definition uint_to_bytes (t : Target) (v : Z) : list Z := to_le 8 (nbytes t) v.

Definition uint_from_bytes (t : Target) (bs : list Z) : option Z :=
  if Nat.eqb (List.length bs) (nbytes t) && forallb (fun d => (0 <=? d) && (d <? 256)) bs
  then Some (le_value 8 bs) else None.

(** [Serialize for Residue]: on the accelerated path the stored value is
    first multiplied by [R]. *)
Definition serialize (t : Target) (p : ResidueParams) (r : Residue)
  : option (list Z) :=
  if accelerated t then
    option_map (uint_to_bytes t)
      (modmul_uint_256 t (montgomery_form r) (R p) (MODULUS p))
  else Some (uint_to_bytes t (montgomery_form r)).

Inductive Deserialized :=
| DeOk (r : Residue)
| DeErr (msg : String.string).

(** [Deserialize for Residue]: the value must be below the modulus; on the
    accelerated path it is multiplied by [r_inv = R^-1 mod MODULUS]. *)
Definition deserialize (t : Target) (p : ResidueParams) (bs : list Z)
  : option Deserialized :=
  match uint_from_bytes t bs with
  | None => Some (DeErr "invalid length"%string)
  | Some mf =>
      if mf <? MODULUS p then
        if accelerated t then
          let r_inv := fst (inv_odd_mod (R p) (MODULUS p)) in
          match modmul_uint_256 t mf r_inv (MODULUS p) with
          | Some value => Some (DeOk (mk_residue value))
          | None => None
          end
        else Some (DeOk (mk_residue mf))
      else Some (DeErr "montgomery form must be reduced"%string)
  end.

(** Modelled from the spec: the arithmetic of [const_mul.rs], [const_add.rs],
    [const_sub.rs], [const_neg.rs], [const_pow.rs] and [const_inv.rs] (not
    part of this snapshot).  Multiplication is [modmul_uint_256] on the
    accelerated path and Montgomery multiplication otherwise (spec 4.2, 4.5);
    the others work on the stored values directly (spec 4.6). *)
Definition mul (t : Target) (p : ResidueParams) (a b : Residue) : option Residue :=
  if accelerated t then
    option_map mk_residue
      (modmul_uint_256 t (montgomery_form a) (montgomery_form b) (MODULUS p))
  else
    Some (mk_residue (mul_montgomery_form (LIMB_BITS t) (LIMBS t)
            (montgomery_form a) (montgomery_form b) (MODULUS p) (MOD_NEG_INV p) 0)).

Definition add (p : ResidueParams) (a b : Residue) : Residue :=
  mk_residue (add_mod (montgomery_form a) (montgomery_form b) (MODULUS p)).

Definition sub (p : ResidueParams) (a b : Residue) : Residue :=
  mk_residue (sub_mod (montgomery_form a) (montgomery_form b) (MODULUS p)).

Definition neg (p : ResidueParams) (a : Residue) : Residue :=
  mk_residue (neg_mod (montgomery_form a) (MODULUS p)).

(** Exponentiation over the exponent bits, most significant first: square,
    multiply, and select the product when the bit is set. *)
Definition pow (t : Target) (p : ResidueParams) (base : Residue) (bits : list bool)
  : option Residue :=
  fold_left (fun acc bit =>
    match acc with
    | None => None
    | Some x =>
        match mul t p x x with
        | None => None
        | Some sq =>
            match mul t p sq base with
            | None => None
            | Some prod => Some (conditional_select sq prod bit)
            end
        end
    end) bits (Some (ONE t p)).

(** [invert]: [inv_montgomery_form] on the stored value. *)
Definition invert (t : Target) (p : ResidueParams) (r : Residue) : Residue * bool :=
  let r_inv := fst (inv_odd_mod (R p) (MODULUS p)) in
  let (v, found) := inv_montgomery_form t (montgomery_form r) (MODULUS p) (R3 p)
                      (MOD_NEG_INV p) r_inv in
  (mk_residue v, found).

(** The element [x] of [Z/MODULUS] as the stored value of a residue:
    standard form on the accelerated path, Montgomery form [x * R] otherwise. *)
Definition scale (t : Target) (p : ResidueParams) : Z :=
  if accelerated t then 1 else R p.

Definition stored_form (t : Target) (p : ResidueParams) (x : Z) : Z :=
  (x * scale t p) mod MODULUS p.

(** The representation invariant of spec 3: the stored value is reduced. *)
Definition canonical (p : ResidueParams) (r : Residue) : Prop :=
  0 <= montgomery_form r < MODULUS p.

(** Residues a program can build through the public operations. *)
Inductive reachable (t : Target) (p : ResidueParams) : Residue -> Prop :=
| reach_zero : reachable t p ZERO
| reach_one : reachable t p (ONE t p)
| reach_new x r :
    0 <= x < uint_bound t -> new t p x = Some r -> reachable t p r
| reach_decode bs r : deserialize t p bs = Some (DeOk r) -> reachable t p r
| reach_mul a b r :
    reachable t p a -> reachable t p b -> mul t p a b = Some r -> reachable t p r
| reach_add a b : reachable t p a -> reachable t p b -> reachable t p (add p a b)
| reach_sub a b : reachable t p a -> reachable t p b -> reachable t p (sub p a b)
| reach_neg a : reachable t p a -> reachable t p (neg p a)
| reach_div_by_2 a : reachable t p a -> reachable t p (div_by_2 p a)
| reach_pow a bits r :
    reachable t p a -> pow t p a bits = Some r -> reachable t p r
| reach_invert a : reachable t p a -> reachable t p (fst (invert t p a))
| reach_select a b c :
    reachable t p a -> reachable t p b -> reachable t p (conditional_select a b c).




(** The two builds compared for cross-backend equivalence: the [riscv32]
    zkVM build with eight 32-bit limbs, and the same width with the
    accelerator disabled. *)
Definition zkvm_target : Target := mk_target Risc0.sys_bigint_spec true 8 32.

Definition software_target : Target := mk_target Risc0.sys_bigint_spec false 8 32.

End ConstMod.

(** ** Facts about digit lists and the shim *)
Module WordFacts.
Import Words.

Lemma length_to_le bits k v : length (to_le bits k v) = k.
Proof. revert v; induction k; intros v; simpl; auto. Qed.

Lemma le_value_app bits l1 l2 :
  0 <= bits ->
  le_value bits (l1 ++ l2) =
  le_value bits l1 + 2 ^ (bits * Z.of_nat (length l1)) * le_value bits l2.
Proof.
  intros Hb; induction l1 as [|d l1 IH]; cbn [le_value app length].
  - rewrite Z.mul_0_r, Z.pow_0_r; lia.
  - rewrite IH, Nat2Z.inj_succ, Z.mul_succ_r, Z.pow_add_r by lia; ring.
Qed.

Lemma le_value_to_le bits k v :
  0 < bits -> le_value bits (to_le bits k v) = v mod 2 ^ (bits * Z.of_nat k).
Proof.
  intros Hb; revert v; induction k as [|k IH]; intros v; cbn [to_le le_value].
  - rewrite Z.mul_0_r, Z.pow_0_r, Z.mod_1_r; reflexivity.
  - rewrite IH, Nat2Z.inj_succ, Z.mul_succ_r.
    rewrite (Z.add_comm (bits * Z.of_nat k) bits), Z.pow_add_r by lia.
    rewrite Z.rem_mul_r; try lia.
Qed.

Lemma to_le_le_value bits ds :
  0 < bits -> Forall (fun d => 0 <= d < 2 ^ bits) ds ->
  to_le bits (length ds) (le_value bits ds) = ds.
Proof.
  intros Hb Hds; induction Hds as [|d ds Hd Hds IH]; simpl; auto.
  assert (H2 : 0 < 2 ^ bits) by (apply Z.pow_pos_nonneg; lia).
  rewrite Z.mul_comm, Z.mod_add, Z.mod_small, Z.div_add, Z.div_small by lia.
  simpl; rewrite IH; reflexivity.
Qed.

Lemma le_value_bound bits ds :
  0 < bits -> Forall (fun d => 0 <= d < 2 ^ bits) ds ->
  0 <= le_value bits ds < 2 ^ (bits * Z.of_nat (length ds)).
Proof.
  intros Hb Hds; induction Hds as [|d ds Hd Hds IH]; cbn [le_value length].
  - rewrite Z.mul_0_r; simpl; lia.
  - rewrite Nat2Z.inj_succ, Z.mul_succ_r.
    rewrite (Z.add_comm (bits * Z.of_nat (length ds)) bits), Z.pow_add_r by lia.
    assert (H2 : 0 < 2 ^ bits) by (apply Z.pow_pos_nonneg; lia).
    nia.
Qed.

Lemma le_value_zeros bits k : le_value bits (repeat 0 k) = 0.
Proof. induction k; simpl; auto; rewrite IHk; ring. Qed.

End WordFacts.

Module Risc0Facts.
Import Words WordFacts Risc0.

Lemma sys_bigint_digits h op x y m :
  digits_ok 32 BIGINT_WIDTH_WORDS (sys_bigint h op x y m).
Proof.
  unfold sys_bigint, digits_ok; split; [apply length_to_le|].
  generalize (h op x y m); generalize BIGINT_WIDTH_WORDS.
  induction n as [|n IH]; intros v; simpl; constructor; auto.
  apply Z.mod_pos_bound; lia.
Qed.

Lemma sys_bigint_value h op x y m :
  le_value 32 (sys_bigint h op x y m) = h op x y m mod 2 ^ 256.
Proof. unfold sys_bigint; rewrite le_value_to_le by lia; reflexivity. Qed.

Example modmul_u256_small :
  modmul_u256 sys_bigint_spec 8 (to_le 32 8 5) (to_le 32 8 7) (to_le 32 8 13)
  = Ret [mk_call OP_MULTIPLY (to_le 32 8 5) (to_le 32 8 7) (to_le 32 8 13)]
        (to_le 32 8 9).
Proof. reflexivity. Qed.

Example mul_wide_u128_small :
  mul_wide_u128 sys_bigint_spec 4 (to_le 32 4 (2 ^ 100)) (to_le 32 4 (2 ^ 100))
  = Ret [mk_call OP_MULTIPLY (to_le 32 8 (2 ^ 100)) (to_le 32 8 (2 ^ 100))
                 (repeat 0 8)]
        (to_le 32 4 0, to_le 32 4 (2 ^ 72)).
Proof. reflexivity. Qed.

End Risc0Facts.

(** ** Facts about Montgomery arithmetic *)
Module ModularFacts.
Import Words WordFacts Modular.

#[export] Instance cong_equiv M : Equivalence (cong M).
Proof. split; unfold cong; congruence. Qed.

#[export] Instance cong_mul M : Proper (cong M ==> cong M ==> cong M) Z.mul.
Proof.
  intros a a' Ha b b' Hb; unfold cong in *.
  rewrite Zmult_mod, Ha, Hb, <- Zmult_mod; reflexivity.
Qed.

#[export] Instance cong_add M : Proper (cong M ==> cong M ==> cong M) Z.add.
Proof.
  intros a a' Ha b b' Hb; unfold cong in *.
  rewrite Zplus_mod, Ha, Hb, <- Zplus_mod; reflexivity.
Qed.

#[export] Instance cong_sub M : Proper (cong M ==> cong M ==> cong M) Z.sub.
Proof.
  intros a a' Ha b b' Hb; unfold cong in *.
  rewrite Zminus_mod, Ha, Hb, <- Zminus_mod; reflexivity.
Qed.

#[export] Instance cong_opp M : Proper (cong M ==> cong M) Z.opp.
Proof.
  intros a a' Ha.
  replace (- a) with (0 - a) by ring; replace (- a') with (0 - a') by ring.
  apply cong_sub; [reflexivity | exact Ha].
Qed.

Lemma cong_mod M a : cong M (a mod M) a.
Proof. unfold cong; apply Zmod_mod. Qed.

Lemma params_okb_spec w n p :
  params_okb w n p = true ->
  Z.odd (MODULUS p) = true /\ 0 < MODULUS p < 2 ^ (w * Z.of_nat n) /\
  R p = 2 ^ (w * Z.of_nat n) mod MODULUS p /\
  R2 p = R p ^ 2 mod MODULUS p /\ R3 p = R p ^ 3 mod MODULUS p /\
  0 <= MOD_NEG_INV p < 2 ^ w /\
  (MODULUS p * MOD_NEG_INV p + 1) mod 2 ^ w = 0.
Proof.
  unfold params_okb; intros H.
  repeat rewrite andb_true_iff in H.
  destruct H as [[[[[[[[H1 H2] H3] H4] H5] H6] H7] H8] H9].
  apply Z.ltb_lt in H2, H3, H8; apply Z.eqb_eq in H4, H5, H6, H9;
    apply Z.leb_le in H7.
  repeat split; auto; lia.
Qed.

(** Congruences modulo an odd modulus can be divided by a power of two. *)
Lemma odd_coprime_pow2 M k :
  Z.odd M = true -> 0 <= k -> Z.coprime M (2 ^ k).
Proof.
  intros Hodd Hk; apply Z.coprime_pow_r; auto.
  unfold Z.coprime; rewrite Z.gcd_comm; apply Z.coprime_prime_l; [apply Z.prime_2|].
  intros Hd; apply Z.mod_divide in Hd; [|lia].
  rewrite Zmod_odd, Hodd in Hd; discriminate.
Qed.

Lemma cong_cancel M a b c :
  0 < M -> Z.coprime M c -> (a * c) mod M = (b * c) mod M -> a mod M = b mod M.
Proof.
  intros HM Hc H.
  apply Z.cong_iff_0 in H; apply Z.cong_iff_0.
  apply Z.mod_divide in H; [|lia]; apply Z.mod_divide; [lia|].
  apply Z.gauss with c; auto.
  replace (c * (a - b)) with (a * c - b * c) by ring; exact H.
Qed.

Lemma cong_small M a b :
  0 <= a < M -> 0 <= b < M -> a mod M = b mod M -> a = b.
Proof. intros Ha Hb H; rewrite !Z.mod_small in H; auto. Qed.

Section Redc.
Variables (w M ninv : Z).
Hypothesis Hw : 0 < w.
Hypothesis HM : 0 < M.
Hypothesis Hninv : (M * ninv + 1) mod 2 ^ w = 0.

Lemma B_pos : 0 < (2 ^ w).
Proof. apply Z.pow_pos_nonneg; lia. Qed.

(** Adding [u * M] clears the low limb. *)
Lemma redc_round_exact t :
  (t + (t mod (2 ^ w)) * ninv mod (2 ^ w) * M) mod (2 ^ w) = 0.
Proof.
  pose proof B_pos as HB.
  apply Zmod_divides in Hninv as [c Hc]; [|lia].
  rewrite (Z.div_mod t (2 ^ w)) at 1 by lia.
  rewrite (Z.mod_eq (t mod (2 ^ w) * ninv)) by lia.
  set (tm := t mod (2 ^ w)); set (q := tm * ninv / (2 ^ w)).
  replace ((2 ^ w) * (t / (2 ^ w)) + tm + (tm * ninv - (2 ^ w) * q) * M)
    with ((t / (2 ^ w) + tm * c - q * M) * (2 ^ w)).
  - apply Z.mod_mul; lia.
  - transitivity ((2 ^ w) * (t / (2 ^ w)) + tm * (M * ninv + 1) - (2 ^ w) * q * M).
    + rewrite Hc; ring.
    + ring.
Qed.

Lemma redc_rounds_spec k t :
  0 <= t < M * 2 ^ (w * Z.of_nat k) + M ->
  0 <= redc_rounds w M ninv k t < 2 * M /\
  (redc_rounds w M ninv k t * 2 ^ (w * Z.of_nat k)) mod M = t mod M.
Proof.
  pose proof B_pos as HB.
  revert t; induction k as [|k IH]; intros t Ht; cbn [redc_rounds].
  - rewrite Z.mul_0_r, Z.pow_0_r, Z.mul_1_r in *; split; [lia | reflexivity].
  - set (u := t mod 2 ^ w * ninv mod 2 ^ w).
    assert (Hu : 0 <= u < (2 ^ w)) by (apply Z.mod_pos_bound; lia).
    assert (Hex : t + u * M = (2 ^ w) * ((t + u * M) / (2 ^ w))).
    { apply Z.div_exact; [lia|]. apply redc_round_exact. }
    set (t1 := (t + u * M) / (2 ^ w)) in *.
    assert (Hpow : 2 ^ (w * Z.of_nat (S k)) = 2 ^ (w * Z.of_nat k) * (2 ^ w)).
    { rewrite Nat2Z.inj_succ, Z.mul_succ_r, Z.pow_add_r; lia. }
    assert (Hk : 0 < 2 ^ (w * Z.of_nat k)) by (apply Z.pow_pos_nonneg; lia).
    rewrite Hpow in Ht.
    assert (Ht1 : 0 <= t1 < M * 2 ^ (w * Z.of_nat k) + M) by nia.
    destruct (IH t1 Ht1) as [Hb Hc].
    split; [exact Hb|].
    rewrite Hpow, Z.mul_assoc, <- Z.mul_mod_idemp_l, Hc, Z.mul_mod_idemp_l by lia.
    rewrite Z.mul_comm, <- Hex, Z.mod_add by lia; reflexivity.
Qed.

(** REDC returns the reduced value [T * 2^(-w*LIMBS)]. *)
Lemma montgomery_reduction_spec n lo hi :
  0 <= lo + hi * 2 ^ (w * Z.of_nat n) < M * 2 ^ (w * Z.of_nat n) ->
  0 <= montgomery_reduction w n (lo, hi) M ninv < M /\
  (montgomery_reduction w n (lo, hi) M ninv * 2 ^ (w * Z.of_nat n)) mod M =
  (lo + hi * 2 ^ (w * Z.of_nat n)) mod M.
Proof.
  intros HT; unfold montgomery_reduction.
  destruct (redc_rounds_spec n (lo + hi * 2 ^ (w * Z.of_nat n))) as [Hb Hc]; [lia|].
  set (r := redc_rounds _ _ _ _ _) in *.
  destruct (Z.leb_spec M r).
  - split; [lia|].
    rewrite <- Hc.
    replace ((r - M) * 2 ^ (w * Z.of_nat n))
      with (r * 2 ^ (w * Z.of_nat n) + - 2 ^ (w * Z.of_nat n) * M) by ring.
    apply Z.mod_add; lia.
  - split; [lia | exact Hc].
Qed.

End Redc.

Lemma cong_sub_mul M a a' b b' q :
  0 < M -> a mod M = a' mod M -> b mod M = b' mod M ->
  (a - q * b) mod M = (a' - q * b') mod M.
Proof.
  intros HM Ha Hb.
  rewrite Zminus_mod, Ha, <- Z.mul_mod_idemp_r, Hb, Z.mul_mod_idemp_r,
    <- Zminus_mod by lia.
  reflexivity.
Qed.

Lemma xeuclid_spec M x fuel : 0 < M ->
  forall r0 s0 r1 s1,
  0 <= r1 <= r0 ->
  (r1 = 0 \/ Z.log2 r0 + Z.log2 r1 < Z.of_nat fuel) ->
  r0 mod M = (s0 * x) mod M -> r1 mod M = (s1 * x) mod M ->
  fst (xeuclid fuel r0 s0 r1 s1) = Z.gcd r0 r1 /\
  fst (xeuclid fuel r0 s0 r1 s1) mod M = (snd (xeuclid fuel r0 s0 r1 s1) * x) mod M.
Proof.
  intros HM; induction fuel as [|f IH]; intros r0 s0 r1 s1 Hr Hfuel H0 H1.
  - destruct Hfuel as [->|Hf].
    + cbn; rewrite Z.gcd_0_r, Z.abs_eq by lia; auto.
    + pose proof (Z.log2_nonneg r0); pose proof (Z.log2_nonneg r1); simpl in Hf; lia.
  - cbn [xeuclid].
    destruct (Z.eqb_spec r1 0) as [->|Hr1].
    + cbn; rewrite Z.gcd_0_r, Z.abs_eq by lia; auto.
    + assert (Hm : 0 <= r0 mod r1 < r1) by (apply Z.mod_pos_bound; lia).
      assert (Hg : Z.gcd r1 (r0 mod r1) = Z.gcd r0 r1).
      { rewrite Z.gcd_comm, Z.gcd_mod, Z.gcd_comm by lia; reflexivity. }
      rewrite <- Hg; apply IH; [lia | | exact H1 |].
      * destruct (Z.eqb_spec (r0 mod r1) 0) as [E|E]; [left; exact E | right].
        assert (Hq : 1 <= r0 / r1) by (apply Z.div_le_lower_bound; lia).
        pose proof (Z.div_mod r0 r1 Hr1).
        assert (H2 : 2 * (r0 mod r1) <= r0) by nia.
        pose proof (Z.log2_le_mono _ _ H2) as Hl.
        rewrite Z.log2_double in Hl by lia.
        rewrite Nat2Z.inj_succ in Hfuel; destruct Hfuel as [Hf|Hf]; [lia|].
        pose proof (Z.log2_nonneg r1); lia.
      * rewrite (Z.mod_eq r0 r1) by lia.
        replace ((s0 - r0 / r1 * s1) * x) with (s0 * x - r0 / r1 * (s1 * x)) by ring.
        rewrite (Z.mul_comm r1).
        apply cong_sub_mul; auto.
Qed.

(** The modelled [inv_odd_mod]: the candidate is reduced, the flag is
    [gcd(x, modulus) = 1], and a flagged candidate is an inverse. *)
Lemma inv_odd_mod_spec x M : 0 < M ->
  0 <= fst (inv_odd_mod x M) < M /\
  (snd (inv_odd_mod x M) = true <-> Z.gcd x M = 1) /\
  (snd (inv_odd_mod x M) = true -> (fst (inv_odd_mod x M) * x) mod M = 1 mod M).
Proof.
  intros HM; unfold inv_odd_mod.
  assert (Hx : 0 <= x mod M < M) by (apply Z.mod_pos_bound; lia).
  destruct (xeuclid_spec M x (S (Z.to_nat (2 * Z.log2 M))) HM M 0 (x mod M) 1)
    as [Hg Hs].
  - lia.
  - right. rewrite Nat2Z.inj_succ, Z2Nat.id by (pose proof (Z.log2_nonneg M); lia).
    assert (Z.log2 (x mod M) <= Z.log2 M) by (apply Z.log2_le_mono; lia).
    lia.
  - rewrite Z.mod_same by lia; reflexivity.
  - rewrite Z.mod_mod, Z.mul_1_l by lia; reflexivity.
  - destruct (xeuclid _ _ _ _ _) as [g s]; simpl in *.
    rewrite Z.gcd_comm, Z.gcd_mod in Hg by lia.
    split; [apply Z.mod_pos_bound; lia|].
    split; [rewrite Z.eqb_eq, Hg, Z.gcd_comm; tauto|].
    intros E; apply Z.eqb_eq in E; rewrite E in Hs.
    rewrite Z.mul_mod_idemp_l by lia; symmetry; exact Hs.
Qed.

Lemma div_by_2_spec a M :
  Z.odd M = true -> 0 <= a < M ->
  0 <= div_by_2 a M < M /\ (2 * div_by_2 a M) mod M = a mod M /\
  (Z.odd a = false -> 2 * div_by_2 a M = a) /\
  (Z.odd a = true -> 2 * div_by_2 a M = a + M).
Proof.
  intros HM Ha; unfold div_by_2.
  destruct (Z.odd a) eqn:Hodd.
  - assert (E : (a + M) mod 2 = 0).
    { rewrite Zplus_mod, !Zmod_odd, Hodd, HM; reflexivity. }
    apply Z.div_exact in E; [|lia].
    repeat split; try lia; try discriminate.
    rewrite <- E; replace (a + M) with (a + 1 * M) by ring.
    apply Z.mod_add; lia.
  - assert (E : a mod 2 = 0) by (rewrite Zmod_odd, Hodd; reflexivity).
    apply Z.div_exact in E; [|lia].
    repeat split; try lia; try discriminate.
    rewrite <- E; reflexivity.
Qed.

Lemma add_mod_spec a b M :
  0 <= a < M -> 0 <= b < M -> add_mod a b M = (a + b) mod M.
Proof.
  intros Ha Hb; unfold add_mod.
  destruct (Z.leb_spec M (a + b)).
  - apply Z.mod_unique with 1; lia.
  - symmetry; apply Z.mod_small; lia.
Qed.

Lemma sub_mod_spec a b M :
  0 <= a < M -> 0 <= b < M -> sub_mod a b M = (a - b) mod M.
Proof.
  intros Ha Hb; unfold sub_mod.
  destruct (Z.ltb_spec a b).
  - apply Z.mod_unique with (-1); lia.
  - symmetry; apply Z.mod_small; lia.
Qed.

Lemma neg_mod_spec a M : 0 <= a < M -> neg_mod a M = (- a) mod M.
Proof.
  intros Ha; unfold neg_mod; rewrite sub_mod_spec by lia; reflexivity.
Qed.

(** With an honest host, the accelerated [modmul_uint_256] is [a * b mod m]. *)
Lemma modmul_uint_256_spec t a b m :
  host t = Risc0.sys_bigint_spec -> LIMBS t = 8%nat ->
  0 <= a < 2 ^ 256 -> 0 <= b < 2 ^ 256 -> 0 < m < 2 ^ 256 ->
  modmul_uint_256 t a b m = Some ((a * b) mod m).
Proof.
  intros Hh HL Ha Hb Hm; unfold modmul_uint_256, Risc0.modmul_u256.
  rewrite Hh, HL; cbn [negb Nat.eqb Risc0.BIGINT_WIDTH_WORDS].
  assert (Hv : le_value 32 (Risc0.sys_bigint Risc0.sys_bigint_spec Risc0.OP_MULTIPLY
                 (to_le 32 8 a) (to_le 32 8 b) (to_le 32 8 m)) = (a * b) mod m).
  { rewrite Risc0Facts.sys_bigint_value; unfold Risc0.sys_bigint_spec.
    rewrite !le_value_to_le by lia.
    change (32 * Z.of_nat 8) with 256.
    rewrite (Z.mod_small a), (Z.mod_small b), (Z.mod_small m) by lia.
    destruct (Z.eqb_spec m 0) as [|_]; [lia|].
    assert (Hr : 0 <= (a * b) mod m < m) by (apply Z.mod_pos_bound; lia).
    apply Z.mod_small; lia. }
  assert (Hmv : le_value 32 (to_le 32 8 m) = m).
  { rewrite le_value_to_le by lia; apply Z.mod_small; change (32 * Z.of_nat 8) with 256; lia. }
  cbv zeta; rewrite Hv, Hmv.
  assert (Hr : 0 <= (a * b) mod m < m) by (apply Z.mod_pos_bound; lia).
  destruct (Z.ltb_spec ((a * b) mod m) m); [|lia].
  cbv iota beta; rewrite Hv; reflexivity.
Qed.

End ModularFacts.

(** ** Facts about residues *)
Module ConstModFacts.
Import Words WordFacts Modular ModularFacts ConstMod String.

Lemma mul_wide_recombine w n a b :
  0 <= w ->
  fst (mul_wide w n a b) + snd (mul_wide w n a b) * 2 ^ (w * Z.of_nat n) = a * b.
Proof.
  intros Hw; unfold mul_wide; cbn [fst snd].
  assert (0 < 2 ^ (w * Z.of_nat n)) by (apply Z.pow_pos_nonneg; lia).
  rewrite (Z.div_mod (a * b) (2 ^ (w * Z.of_nat n))) at 3 by lia; ring.
Qed.

(** [gcd(a * s, M) = gcd(a, M)] for [s] coprime to [M]. *)
Lemma gcd_mul_coprime a s M :
  Z.coprime M s -> Z.gcd (a * s) M = Z.gcd a M.
Proof.
  intros Hs; apply Z.divide_antisym_nonneg; try apply Z.gcd_nonneg.
  - apply Z.gcd_greatest; [|apply Z.gcd_divide_r].
    apply Z.gauss with s; [rewrite Z.mul_comm; apply Z.gcd_divide_l|].
    apply Z.divide_1_r_nonneg; [apply Z.gcd_nonneg|].
    unfold Z.coprime in Hs; rewrite <- Hs.
    apply Z.gcd_greatest; [|apply Z.gcd_divide_r].
    apply Z.divide_trans with (Z.gcd (a * s) M); [apply Z.gcd_divide_l | apply Z.gcd_divide_r].
  - apply Z.gcd_greatest; [|apply Z.gcd_divide_r].
    apply Z.divide_mul_l, Z.gcd_divide_l.
Qed.

Section Residues.
Variables (t : Target) (p : ResidueParams).
Hypothesis Ht : target_ok t.
Hypothesis Hp : params_okb (LIMB_BITS t) (LIMBS t) p = true.

Lemma bits_pos : 0 < LIMB_BITS t.
Proof. destruct Ht as (_ & [-> | ->] & _); lia. Qed.

Lemma bound_pos : 0 < uint_bound t.
Proof. pose proof bits_pos; unfold uint_bound; apply Z.pow_pos_nonneg; lia. Qed.

Lemma params_facts :
  Z.odd (MODULUS p) = true /\ 0 < MODULUS p < uint_bound t /\
  R p = uint_bound t mod MODULUS p /\
  R2 p = R p ^ 2 mod MODULUS p /\ R3 p = R p ^ 3 mod MODULUS p /\
  (MODULUS p * MOD_NEG_INV p + 1) mod 2 ^ LIMB_BITS t = 0.
Proof.
  destruct (params_okb_spec _ _ _ Hp) as (H1 & H2 & H3 & H4 & H5 & _ & H7).
  unfold uint_bound; auto 7.
Qed.

Lemma M_pos : 0 < MODULUS p.
Proof. apply params_facts. Qed.

Lemma accel_facts :
  accelerated t = true ->
  LIMBS t = 8%nat /\ LIMB_BITS t = 32 /\ uint_bound t = 2 ^ 256.
Proof.
  unfold accelerated; intros H; apply andb_true_iff in H as [Hz Hl].
  apply Nat.eqb_eq in Hl.
  destruct Ht as (_ & _ & _ & Hb); specialize (Hb Hz).
  unfold uint_bound; rewrite Hl, Hb; auto.
Qed.

Lemma R_range : 0 <= R p < MODULUS p.
Proof.
  destruct params_facts as (_ & HM & HR & _); rewrite HR; apply Z.mod_pos_bound; lia.
Qed.

Lemma R_cong : cong (MODULUS p) (R p) (uint_bound t).
Proof. destruct params_facts as (_ & _ & HR & _); rewrite HR; apply cong_mod. Qed.

Lemma coprime_bound : Z.coprime (MODULUS p) (uint_bound t).
Proof.
  pose proof bits_pos; destruct params_facts as (Hodd & _).
  apply odd_coprime_pow2; auto; lia.
Qed.

Lemma coprime_R : Z.coprime (MODULUS p) (R p).
Proof.
  pose proof M_pos; destruct params_facts as (_ & _ & HR & _).
  unfold Z.coprime; rewrite HR, Z.gcd_comm, Z.gcd_mod by lia; apply coprime_bound.
Qed.

Lemma coprime_scale : Z.coprime (MODULUS p) (scale t p).
Proof.
  unfold scale; destruct (accelerated t); [apply Z.gcd_1_r | apply coprime_R].
Qed.

Lemma cong_cancel_scale a b :
  cong (MODULUS p) (a * scale t p) (b * scale t p) -> cong (MODULUS p) a b.
Proof. apply cong_cancel; [apply M_pos | apply coprime_scale]. Qed.

Lemma cong_cancel_bound a b :
  cong (MODULUS p) (a * uint_bound t) (b * uint_bound t) -> cong (MODULUS p) a b.
Proof. apply cong_cancel; [apply M_pos | apply coprime_bound]. Qed.

(** REDC of a product below [MODULUS * 2^(w*LIMBS)] is the reduced [z] with
    [z * 2^(w*LIMBS) = T]. *)
Lemma redc_eq lo hi z :
  0 <= lo + hi * uint_bound t < MODULUS p * uint_bound t ->
  0 <= z < MODULUS p ->
  cong (MODULUS p) (z * uint_bound t) (lo + hi * uint_bound t) ->
  montgomery_reduction (LIMB_BITS t) (LIMBS t) (lo, hi) (MODULUS p) (MOD_NEG_INV p) = z.
Proof.
  intros HT Hz Hc.
  destruct params_facts as (_ & HM & _ & _ & _ & Hn).
  destruct (montgomery_reduction_spec (LIMB_BITS t) (MODULUS p) (MOD_NEG_INV p)
              bits_pos ltac:(lia) Hn (LIMBS t) lo hi HT) as [Hr Hc'].
  apply cong_small with (MODULUS p); auto.
  apply cong_cancel_bound.
  change (cong (MODULUS p) (montgomery_reduction (LIMB_BITS t) (LIMBS t) (lo, hi)
            (MODULUS p) (MOD_NEG_INV p) * uint_bound t) (lo + hi * uint_bound t))
    in Hc'.
  rewrite Hc', Hc; reflexivity.
Qed.

Lemma redc_range lo hi :
  0 <= lo + hi * uint_bound t < MODULUS p * uint_bound t ->
  0 <= montgomery_reduction (LIMB_BITS t) (LIMBS t) (lo, hi) (MODULUS p)
         (MOD_NEG_INV p) < MODULUS p /\
  cong (MODULUS p)
    (montgomery_reduction (LIMB_BITS t) (LIMBS t) (lo, hi) (MODULUS p)
       (MOD_NEG_INV p) * uint_bound t) (lo + hi * uint_bound t).
Proof.
  intros HT; destruct params_facts as (_ & HM & _ & _ & _ & Hn).
  apply (montgomery_reduction_spec (LIMB_BITS t) (MODULUS p) (MOD_NEG_INV p)
           bits_pos ltac:(lia) Hn (LIMBS t) lo hi HT).
Qed.

Lemma stored_range x : 0 <= stored_form t p x < MODULUS p.
Proof. pose proof M_pos; apply Z.mod_pos_bound; lia. Qed.

Lemma stored_cong x : cong (MODULUS p) (stored_form t p x) (x * scale t p).
Proof. apply cong_mod. Qed.

Lemma canonical_stored x : canonical p (mk_residue (stored_form t p x)).
Proof. apply stored_range. Qed.

Lemma retrieve_stored x :
  retrieve t p (mk_residue (stored_form t p x)) = x mod MODULUS p.
Proof.
  pose proof M_pos; pose proof bound_pos; pose proof (stored_range x).
  pose proof (stored_cong x) as Hs.
  unfold retrieve, stored_form, scale in *; cbn [montgomery_form].
  destruct (accelerated t).
  - rewrite Z.mul_1_r; reflexivity.
  - apply redc_eq; [nia | apply Z.mod_pos_bound; lia |].
    rewrite Z.mul_0_l, Z.add_0_r, !cong_mod, R_cong; reflexivity.
Qed.

Lemma canonical_retrieve r :
  canonical p r ->
  0 <= retrieve t p r < MODULUS p /\ r = mk_residue (stored_form t p (retrieve t p r)).
Proof.
  destruct r as [mf]; unfold canonical; cbn [montgomery_form]; intros Hr.
  pose proof M_pos; pose proof bound_pos.
  unfold retrieve, stored_form, scale; cbn [montgomery_form].
  destruct (accelerated t).
  - rewrite Z.mul_1_r, Z.mod_small by lia; auto.
  - destruct (redc_range mf 0) as [Hz Hc]; [nia|].
    split; [exact Hz|]; f_equal.
    apply cong_small with (MODULUS p); [exact Hr | apply Z.mod_pos_bound; lia |].
    rewrite Z.mul_0_l, Z.add_0_r in Hc.
    symmetry; change (cong (MODULUS p) (montgomery_reduction (LIMB_BITS t) (LIMBS t)
      (mf, 0) (MODULUS p) (MOD_NEG_INV p) * R p mod MODULUS p) mf).
    rewrite cong_mod, R_cong, Hc; reflexivity.
Qed.

Lemma stored_lt_bound x : 0 <= stored_form t p x < uint_bound t.
Proof. pose proof (stored_range x); destruct params_facts as (_ & HM & _); lia. Qed.

Lemma stored_eq x y : cong (MODULUS p) x y -> stored_form t p x = stored_form t p y.
Proof.
  intros H; unfold stored_form; change (cong (MODULUS p) (x * scale t p) (y * scale t p)).
  rewrite H; reflexivity.
Qed.


Lemma new_stored x :
  0 <= x < uint_bound t -> new t p x = Some (mk_residue (stored_form t p x)).
Proof.
  intros Hx; pose proof M_pos; pose proof bound_pos.
  destruct params_facts as (_ & HM & HR & HR2 & _).
  unfold new, stored_form, scale; destruct (accelerated t) eqn:Ha.
  - destruct (accel_facts Ha) as (HL & _ & Hb); destruct Ht as (Hh & _).
    rewrite modmul_uint_256_spec by (auto; lia); reflexivity.
  - f_equal; f_equal.
    assert (HR2r : 0 <= R2 p < MODULUS p) by (rewrite HR2; apply Z.mod_pos_bound; lia).
    pose proof (mul_wide_recombine (LIMB_BITS t) (LIMBS t) x (R2 p)) as Hw.
    destruct (mul_wide _ _ _ _) as [lo hi]; cbn [fst snd] in Hw.
    pose proof bits_pos; specialize (Hw ltac:(lia)).
    change (2 ^ (LIMB_BITS t * Z.of_nat (LIMBS t))) with (uint_bound t) in Hw.
    apply redc_eq; [nia | apply Z.mod_pos_bound; lia |].
    rewrite Hw, cong_mod, HR2, cong_mod, <- R_cong; unfold cong; f_equal; ring.
Qed.

Lemma mul_stored x y :
  mul t p (mk_residue (stored_form t p x)) (mk_residue (stored_form t p y)) =
  Some (mk_residue (stored_form t p (x * y))).
Proof.
  pose proof M_pos; pose proof (stored_range x); pose proof (stored_range y).
  destruct params_facts as (_ & HM & _).
  unfold mul; cbn [montgomery_form].
  destruct (accelerated t) eqn:Ha.
  - destruct (accel_facts Ha) as (HL & _ & Hb); destruct Ht as (Hh & _).
    rewrite modmul_uint_256_spec by (auto; lia); do 2 f_equal.
    unfold stored_form, scale; rewrite Ha, !Z.mul_1_r, <- Z.mul_mod by lia; reflexivity.
  - f_equal; f_equal; unfold mul_montgomery_form.
    pose proof (mul_wide_recombine (LIMB_BITS t) (LIMBS t) (stored_form t p x)
                  (stored_form t p y)) as Hw.
    destruct (mul_wide _ _ _ _) as [lo hi]; cbn [fst snd] in Hw.
    pose proof bits_pos; specialize (Hw ltac:(lia)).
    change (2 ^ (LIMB_BITS t * Z.of_nat (LIMBS t))) with (uint_bound t) in Hw.
    apply redc_eq; [nia | apply stored_range |].
    rewrite Hw, !stored_cong; unfold scale; rewrite Ha, <- R_cong.
    unfold cong; f_equal; ring.
Qed.

Lemma add_stored x y :
  add p (mk_residue (stored_form t p x)) (mk_residue (stored_form t p y)) =
  mk_residue (stored_form t p (x + y)).
Proof.
  unfold add; cbn [montgomery_form]; f_equal.
  rewrite add_mod_spec by apply stored_range.
  change (cong (MODULUS p) (stored_form t p x + stored_form t p y)
            ((x + y) * scale t p)).
  rewrite !stored_cong; unfold cong; f_equal; ring.
Qed.

Lemma sub_stored x y :
  sub p (mk_residue (stored_form t p x)) (mk_residue (stored_form t p y)) =
  mk_residue (stored_form t p (x - y)).
Proof.
  unfold sub; cbn [montgomery_form]; f_equal.
  rewrite sub_mod_spec by apply stored_range.
  change (cong (MODULUS p) (stored_form t p x - stored_form t p y)
            ((x - y) * scale t p)).
  rewrite !stored_cong; unfold cong; f_equal; ring.
Qed.

Lemma neg_stored x :
  neg p (mk_residue (stored_form t p x)) = mk_residue (stored_form t p (- x)).
Proof.
  unfold neg; cbn [montgomery_form]; f_equal.
  rewrite neg_mod_spec by apply stored_range.
  change (cong (MODULUS p) (- stored_form t p x) (- x * scale t p)).
  rewrite stored_cong; unfold cong; f_equal; ring.
Qed.

Lemma zero_stored : ZERO = mk_residue (stored_form t p 0).
Proof. unfold ZERO, stored_form; rewrite Z.mul_0_l, Z.mod_0_l; auto; pose proof M_pos; lia. Qed.

Lemma one_stored : 1 < MODULUS p -> ONE t p = mk_residue (stored_form t p 1).
Proof.
  intros H1; unfold ONE, stored_form, scale; rewrite Z.mul_1_l.
  destruct (accelerated t); f_equal.
  - rewrite Z.mod_small; lia.
  - rewrite Z.mod_small; auto; apply R_range.
Qed.

Lemma select_stored x y c :
  conditional_select (mk_residue (stored_form t p x)) (mk_residue (stored_form t p y)) c =
  mk_residue (stored_form t p (if c then y else x)).
Proof. destruct c; reflexivity. Qed.

Lemma div2_stored x :
  0 <= x < MODULUS p ->
  div_by_2 p (mk_residue (stored_form t p x)) =
  mk_residue (stored_form t p (Modular.div_by_2 x (MODULUS p))).
Proof.
  intros Hx; pose proof M_pos; destruct params_facts as (Hodd & _).
  unfold div_by_2; cbn [montgomery_form]; f_equal.
  destruct (div_by_2_spec x (MODULUS p) Hodd Hx) as (Hy & Hy2 & _).
  destruct (div_by_2_spec _ (MODULUS p) Hodd (stored_range x)) as (Hz & Hz2 & _).
  apply cong_small with (MODULUS p); [exact Hz | apply stored_range |].
  apply cong_cancel with 2; [lia | |].
  - rewrite <- (Z.pow_1_r 2); apply odd_coprime_pow2; auto; lia.
  - change (cong (MODULUS p) (Modular.div_by_2 (stored_form t p x) (MODULUS p) * 2)
              (stored_form t p (Modular.div_by_2 x (MODULUS p)) * 2)).
    rewrite (Z.mul_comm _ 2); unfold cong; rewrite Hz2.
    change (cong (MODULUS p) (stored_form t p x)
              (stored_form t p (Modular.div_by_2 x (MODULUS p)) * 2)).
    rewrite !stored_cong.
    change (cong (MODULUS p) (2 * Modular.div_by_2 x (MODULUS p)) x) in Hy2.
    rewrite <- Hy2 at 1; unfold cong; f_equal; ring.
Qed.

Lemma pow_stored base bits a :
  1 < MODULUS p ->
  fold_left (fun acc bit =>
    match acc with
    | None => None
    | Some x =>
        match mul t p x x with
        | None => None
        | Some sq =>
            match mul t p sq (mk_residue (stored_form t p base)) with
            | None => None
            | Some prod => Some (conditional_select sq prod bit)
            end
        end
    end) bits (Some (mk_residue (stored_form t p a))) =
  Some (mk_residue (stored_form t p
    (fold_left (fun acc (bit : bool) => if bit then acc * acc * base else acc * acc)
       bits a))).
Proof.
  intros H1; revert a; induction bits as [|b bits IH]; intros a; [reflexivity|].
  cbn [fold_left]; rewrite !mul_stored, select_stored, <- IH.
  destruct b; reflexivity.
Qed.

Lemma pow_elem_stored base bits :
  1 < MODULUS p ->
  pow t p (mk_residue (stored_form t p base)) bits =
  Some (mk_residue (stored_form t p
    (fold_left (fun acc (bit : bool) => if bit then acc * acc * base else acc * acc)
       bits 1))).
Proof. intros H1; unfold pow; rewrite one_stored by exact H1; apply pow_stored, H1. Qed.

Lemma gcd_stored x : Z.gcd (stored_form t p x) (MODULUS p) = Z.gcd x (MODULUS p).
Proof.
  pose proof M_pos; unfold stored_form.
  rewrite Z.gcd_mod, Z.gcd_comm by lia; apply gcd_mul_coprime, coprime_scale.
Qed.

Lemma invert_flag r :
  snd (invert t p r) = snd (inv_odd_mod (montgomery_form r) (MODULUS p)).
Proof.
  unfold invert, inv_montgomery_form.
  destruct (inv_odd_mod (montgomery_form r) (MODULUS p)) as [c f].
  destruct (accelerated t); reflexivity.
Qed.

Lemma invert_found x :
  snd (invert t p (mk_residue (stored_form t p x))) = true <->
  Z.gcd x (MODULUS p) = 1.
Proof.
  pose proof M_pos; rewrite invert_flag; cbn [montgomery_form].
  rewrite <- gcd_stored; apply inv_odd_mod_spec; lia.
Qed.

Lemma invert_canonical r : canonical p (fst (invert t p r)).
Proof.
  pose proof M_pos; destruct params_facts as (_ & HM & _ & _ & HR3 & _).
  destruct (inv_odd_mod_spec (montgomery_form r) (MODULUS p) ltac:(lia)) as [Hc _].
  unfold invert, inv_montgomery_form, canonical.
  destruct (inv_odd_mod (montgomery_form r) (MODULUS p)) as [c f]; cbn [fst] in Hc.
  destruct (accelerated t); cbn [fst montgomery_form]; [exact Hc|].
  unfold mul_montgomery_form.
  assert (HR3r : 0 <= R3 p < MODULUS p) by (rewrite HR3; apply Z.mod_pos_bound; lia).
  pose proof (mul_wide_recombine (LIMB_BITS t) (LIMBS t) c (R3 p)) as Hw.
  destruct (mul_wide _ _ _ _) as [lo hi]; cbn [fst snd] in Hw.
  pose proof bits_pos; specialize (Hw ltac:(lia)).
  change (2 ^ (LIMB_BITS t * Z.of_nat (LIMBS t))) with (uint_bound t) in Hw.
  apply redc_range; nia.
Qed.

Lemma invert_stored x :
  Z.gcd x (MODULUS p) = 1 ->
  invert t p (mk_residue (stored_form t p x)) =
  (mk_residue (stored_form t p (fst (inv_odd_mod x (MODULUS p)))), true).
Proof.
  intros Hg; pose proof M_pos; destruct params_facts as (_ & HM & _ & _ & HR3 & _).
  assert (Hcx : Z.coprime (MODULUS p) x) by (unfold Z.coprime; rewrite Z.gcd_comm; exact Hg).
  destruct (inv_odd_mod_spec x (MODULUS p) ltac:(lia)) as (Hy & Hyf & Hyx).
  specialize (Hyx (proj2 Hyf Hg)).
  set (y := fst (inv_odd_mod x (MODULUS p))) in *.
  pose proof (invert_found x) as Hf; rewrite invert_flag in Hf.
  destruct (inv_odd_mod_spec (stored_form t p x) (MODULUS p) ltac:(lia)) as (Hc & _ & Hcs).
  specialize (Hcs (proj2 Hf Hg)).
  cbn [montgomery_form] in Hf.
  unfold invert, inv_montgomery_form; cbn [montgomery_form].
  assert (Hs := stored_cong x).
  destruct (inv_odd_mod (stored_form t p x) (MODULUS p)) as [c f]; cbn [fst snd] in *.
  assert (Ef : f = true) by (apply Hf, Hg); subst f.
  destruct (accelerated t) eqn:Ha; f_equal; f_equal.
  - unfold stored_form, scale; rewrite Ha, Z.mul_1_r.
    apply cong_small with (MODULUS p); [exact Hc | apply Z.mod_pos_bound; lia |].
    rewrite Zmod_mod; apply cong_cancel with x; [lia | exact Hcx |].
    change (cong (MODULUS p) (c * x) (y * x)).
    unfold scale in Hs; rewrite Ha, Z.mul_1_r in Hs.
    rewrite <- Hs at 1; change (cong (MODULUS p) (c * stored_form t p x) 1) in Hcs.
    change (cong (MODULUS p) (y * x) 1) in Hyx.
    rewrite Hcs, Hyx; reflexivity.
  - unfold mul_montgomery_form.
    assert (HR3r : 0 <= R3 p < MODULUS p) by (rewrite HR3; apply Z.mod_pos_bound; lia).
    pose proof (mul_wide_recombine (LIMB_BITS t) (LIMBS t) c (R3 p)) as Hw.
    destruct (mul_wide _ _ _ _) as [lo hi]; cbn [fst snd] in Hw.
    pose proof bits_pos; specialize (Hw ltac:(lia)).
    change (2 ^ (LIMB_BITS t * Z.of_nat (LIMBS t))) with (uint_bound t) in Hw.
    apply redc_eq; [nia | apply stored_range |].
    rewrite Hw, stored_cong; unfold scale in *; rewrite Ha in *.
    rewrite <- R_cong, HR3, cong_mod.
    apply cong_cancel with x; [lia | exact Hcx |].
    change (cong (MODULUS p) (y * R p * R p * x) (c * R p ^ 3 * x)).
    transitivity (R p * R p).
    + replace (y * R p * R p * x) with ((y * x) * (R p * R p)) by ring.
      change (cong (MODULUS p) (y * x) 1) in Hyx.
      rewrite Hyx; unfold cong; f_equal; ring.
    + replace (c * R p ^ 3 * x) with ((c * (x * R p)) * (R p * R p)) by ring.
      change (cong (MODULUS p) (c * stored_form t p x) 1) in Hcs.
      rewrite <- Hs, Hcs; unfold cong; f_equal; ring.
Qed.

Lemma serialize_stored x :
  serialize t p (mk_residue (stored_form t p x)) =
  Some (uint_to_bytes t ((x * R p) mod MODULUS p)).
Proof.
  pose proof M_pos; pose proof R_range; pose proof (stored_range x).
  destruct params_facts as (_ & HM & _).
  unfold serialize; cbn [montgomery_form].
  destruct (accelerated t) eqn:Ha.
  - destruct (accel_facts Ha) as (HL & _ & Hb); destruct Ht as (Hh & _).
    rewrite modmul_uint_256_spec by (auto; lia); cbn [option_map]; do 2 f_equal.
    unfold stored_form, scale; rewrite Ha, Z.mul_1_r, Z.mul_mod_idemp_l by lia.
    reflexivity.
  - unfold stored_form, scale; rewrite Ha; reflexivity.
Qed.

Lemma uint_from_bytes_ok bs :
  List.length bs = nbytes t -> Forall (fun d => 0 <= d < 256) bs ->
  uint_from_bytes t bs = Some (le_value 8 bs).
Proof.
  intros Hl Hb; unfold uint_from_bytes; rewrite Hl, Nat.eqb_refl; cbn [andb].
  replace (forallb _ bs) with true; [reflexivity|].
  symmetry; apply forallb_forall; intros d Hd.
  rewrite Forall_forall in Hb; specialize (Hb d Hd).
  apply andb_true_iff; split; [apply Z.leb_le | apply Z.ltb_lt]; lia.
Qed.

Lemma R_inv_spec :
  cong (MODULUS p) (fst (inv_odd_mod (R p) (MODULUS p)) * R p) 1.
Proof.
  pose proof M_pos.
  destruct (inv_odd_mod_spec (R p) (MODULUS p) ltac:(lia)) as (_ & Hf & Hi).
  apply Hi, Hf; rewrite Z.gcd_comm; apply coprime_R.
Qed.

Lemma deserialize_accept bs :
  List.length bs = nbytes t -> Forall (fun d => 0 <= d < 256) bs ->
  le_value 8 bs < MODULUS p ->
  deserialize t p bs = Some (DeOk (mk_residue
    (stored_form t p (le_value 8 bs * fst (inv_odd_mod (R p) (MODULUS p)))))).
Proof.
  intros Hl Hb Hv; pose proof M_pos; destruct params_facts as (_ & HM & _).
  pose proof (le_value_bound 8 bs ltac:(lia) Hb) as Hv0.
  destruct (inv_odd_mod_spec (R p) (MODULUS p) ltac:(lia)) as (Hri & _).
  unfold deserialize; rewrite uint_from_bytes_ok by assumption.
  destruct (Z.ltb_spec (le_value 8 bs) (MODULUS p)); [|lia].
  unfold stored_form, scale; destruct (accelerated t) eqn:Ha.
  - destruct (accel_facts Ha) as (HL & _ & Hb'); destruct Ht as (Hh & _).
    rewrite modmul_uint_256_spec by (auto; lia); rewrite Z.mul_1_r; reflexivity.
  - do 3 f_equal; symmetry.
    rewrite <- Z.mul_assoc, <- Z.mul_mod_idemp_r by lia.
    pose proof R_inv_spec as Hr; unfold cong in Hr; rewrite Hr.
    rewrite Z.mul_mod_idemp_r, Z.mul_1_r, Z.mod_small by lia; reflexivity.
Qed.

Lemma deserialize_reject bs :
  List.length bs = nbytes t -> Forall (fun d => 0 <= d < 256) bs ->
  MODULUS p <= le_value 8 bs ->
  deserialize t p bs = Some (DeErr "montgomery form must be reduced"%string).
Proof.
  intros Hl Hb Hv; unfold deserialize; rewrite uint_from_bytes_ok by assumption.
  destruct (Z.ltb_spec (le_value 8 bs) (MODULUS p)); [lia | reflexivity].
Qed.


Lemma uint_from_bytes_inv bs v :
  uint_from_bytes t bs = Some v ->
  List.length bs = nbytes t /\ Forall (fun d => 0 <= d < 256) bs /\ v = le_value 8 bs.
Proof.
  unfold uint_from_bytes.
  destruct (Nat.eqb (List.length bs) (nbytes t)) eqn:El; [|discriminate].
  destruct (forallb _ bs) eqn:Eb; [|discriminate].
  intros E; injection E as <-; apply Nat.eqb_eq in El.
  split; [exact El|]; split; [|reflexivity].
  apply Forall_forall; intros d Hd.
  rewrite forallb_forall in Eb; specialize (Eb d Hd).
  apply andb_true_iff in Eb as [E1 E2]; apply Z.leb_le in E1; apply Z.ltb_lt in E2; lia.
Qed.

Lemma decode_eval bs :
  match deserialize t p bs with Some (DeOk r) => Some r | _ => None end =
  match uint_from_bytes t bs with
  | Some v =>
      if v <? MODULUS p
      then Some (mk_residue (stored_form t p (v * fst (inv_odd_mod (R p) (MODULUS p)))))
      else None
  | None => None
  end.
Proof.
  destruct (uint_from_bytes t bs) as [v|] eqn:U.
  - destruct (uint_from_bytes_inv bs v U) as (Hl & Hb & ->).
    destruct (Z.ltb_spec (le_value 8 bs) (MODULUS p)).
    + rewrite deserialize_accept by assumption; reflexivity.
    + rewrite deserialize_reject by assumption; reflexivity.
  - unfold deserialize; rewrite U; reflexivity.
Qed.

Lemma deserialize_ok_stored bs r :
  deserialize t p bs = Some (DeOk r) -> exists y, r = mk_residue (stored_form t p y).
Proof.
  intros H; pose proof (decode_eval bs) as E; rewrite H in E.
  destruct (uint_from_bytes t bs) as [v|]; [destruct (v <? MODULUS p)|];
    try discriminate.
  injection E as ->; eauto.
Qed.

Lemma reachable_canonical r :
  1 < MODULUS p -> reachable t p r -> canonical p r.
Proof.
  intros H1 Hr.
  induction Hr as [ | | x r Hx Hn | bs r Hd | a b r Ha IHa Hb IHb Hm
                  | a b Ha IHa Hb IHb | a b Ha IHa Hb IHb | a Ha IHa | a Ha IHa
                  | a bits r Ha IHa Hpw | a Ha IHa | a b c Ha IHa Hb IHb ];
  try (destruct (canonical_retrieve a IHa) as [Hra Ea];
       set (xa := retrieve t p a) in *; clearbody xa; subst a);
  try (destruct (canonical_retrieve b IHb) as [Hrb Eb];
       set (xb := retrieve t p b) in *; clearbody xb; subst b).
  - unfold canonical; cbn; pose proof M_pos; lia.
  - rewrite one_stored by exact H1; apply canonical_stored.
  - rewrite new_stored in Hn by exact Hx; injection Hn as <-; apply canonical_stored.
  - destruct (deserialize_ok_stored bs r Hd) as [y ->]; apply canonical_stored.
  - rewrite mul_stored in Hm; injection Hm as <-; apply canonical_stored.
  - rewrite add_stored; apply canonical_stored.
  - rewrite sub_stored; apply canonical_stored.
  - rewrite neg_stored; apply canonical_stored.
  - rewrite div2_stored by exact Hra; apply canonical_stored.
  - rewrite pow_elem_stored in Hpw by exact H1; injection Hpw as <-;
      apply canonical_stored.
  - apply invert_canonical.
  - rewrite select_stored; apply canonical_stored.
Qed.

Lemma stored_inj x y :
  stored_form t p x = stored_form t p y <-> cong (MODULUS p) x y.
Proof.
  split; [|apply stored_eq].
  intros E; apply cong_cancel_scale.
  rewrite <- !stored_cong, E; reflexivity.
Qed.

End Residues.

Lemma zkvm_target_ok : target_ok zkvm_target.
Proof. split; [reflexivity|]; split; [left; reflexivity|]; cbn; split; [lia | auto]. Qed.

Lemma software_target_ok : target_ok software_target.
Proof. split; [reflexivity|]; split; [left; reflexivity|]; cbn; split; [lia | discriminate]. Qed.

Section Backends.
Variable p : ResidueParams.
Hypothesis Hp : params_okb 32 8 p = true.
Hypothesis H1 : 1 < MODULUS p.



End Backends.

End ConstModFacts.

(** ** Claims *)
Module Claims.
Import Words WordFacts Risc0 Risc0Facts.

(** C3: every [modmul_u256] call on the accelerated width makes exactly one
    system call and then checks the result against the modulus: it returns
    the host's answer itself (the eight words written to [out]) only when
    that answer is strictly below the modulus, and for any answer of the
    host that is not below the modulus it aborts (panics) rather than
    returning an error value or a repaired result. *)
Theorem modmul_u256_checks_result (h : host) (a b m : list Z) :
  match modmul_u256 h 8 a b m with
  | Ret calls r =>
      calls = [mk_call OP_MULTIPLY a b m] /\ r = sys_bigint h OP_MULTIPLY a b m /\
      le_value 32 r < le_value 32 m
  | Panic calls =>
      calls = [mk_call OP_MULTIPLY a b m] /\
      le_value 32 m <= le_value 32 (sys_bigint h OP_MULTIPLY a b m)
  end.
Proof.
  unfold modmul_u256; simpl negb; cbv iota.
  destruct (Z.ltb_spec (le_value 32 (sys_bigint h OP_MULTIPLY a b m))
                       (le_value 32 m)); auto.
Qed.

(** C9: [mul_wide_u128] on four-word operands zero-extends both to eight
    words, makes one system call with an all-zero modulus, and splits the
    eight result words into four-word halves [(lo, hi)] with
    [lo + hi * 2^128 = a * b]; the path has no range check, so it returns
    whatever the host answers. *)
Theorem mul_wide_u128_product (a b : list Z) :
  digits_ok 32 4 a -> digits_ok 32 4 b ->
  (exists lo hi,
      mul_wide_u128 sys_bigint_spec 4 a b =
        Ret [mk_call OP_MULTIPLY (a ++ repeat 0 4) (b ++ repeat 0 4) (repeat 0 8)]
            (lo, hi) /\
      digits_ok 32 4 lo /\ digits_ok 32 4 hi /\
      le_value 32 lo + le_value 32 hi * 2 ^ 128 = le_value 32 a * le_value 32 b) /\
  (forall h : host, exists r,
      mul_wide_u128 h 4 a b =
        Ret [mk_call OP_MULTIPLY (a ++ repeat 0 4) (b ++ repeat 0 4) (repeat 0 8)] r).
Proof.
  intros [La Fa] [Lb Fb].
  split; [|intros h; eexists; reflexivity].
  unfold mul_wide_u128; simpl negb; cbv iota; cbn [skipn repeat BIGINT_WIDTH_WORDS].
  set (res := sys_bigint _ _ _ _ _).
  destruct (sys_bigint_digits sys_bigint_spec OP_MULTIPLY (a ++ [0; 0; 0; 0])
              (b ++ [0; 0; 0; 0]) [0; 0; 0; 0; 0; 0; 0; 0]) as [Lr Fr].
  fold res in Lr, Fr.
  pose proof (sys_bigint_value sys_bigint_spec OP_MULTIPLY (a ++ [0; 0; 0; 0])
              (b ++ [0; 0; 0; 0]) [0; 0; 0; 0; 0; 0; 0; 0]) as Vr.
  fold res in Vr.
  rewrite <- (firstn_skipn 4 res) in Fr, Vr.
  apply Forall_app in Fr as [F1 F2].
  exists (firstn 4 res), (skipn 4 res).
  assert (L1 : length (firstn 4 res) = 4%nat)
    by (rewrite length_firstn, Lr; reflexivity).
  assert (L2 : length (skipn 4 res) = 4%nat)
    by (rewrite length_skipn, Lr; reflexivity).
  split; [reflexivity|]; split; [split; auto|]; split; [split; auto|].
  rewrite le_value_app, L1 in Vr by lia.
  unfold sys_bigint_spec in Vr.
  change [0; 0; 0; 0] with (repeat 0 4) in Vr.
  rewrite !le_value_app, le_value_zeros, La, Lb in Vr by lia.
  change (le_value 32 (0 :: 0 :: 0 :: 0 :: repeat 0 4)) with 0 in Vr.
  rewrite Z.eqb_refl in Vr.
  pose proof (le_value_bound 32 a ltac:(lia) Fa) as Ba.
  pose proof (le_value_bound 32 b ltac:(lia) Fb) as Bb.
  rewrite La in Ba; rewrite Lb in Bb.
  change (32 * Z.of_nat 4) with 128 in *.
  rewrite Z.mul_0_r, !Z.add_0_r in Vr.
  rewrite Z.mod_small in Vr by (change (2 ^ 256) with (2 ^ 128 * 2 ^ 128); nia).
  lia.
Qed.

(** C10: the width preconditions of the shim are run-time assertions:
    [modmul_u256] panics for every [LIMBS <> 8] and [mul_wide_u128] for every
    [LIMBS <> 4], in both cases before any system call; with [LIMBS = 8]
    (respectively [LIMBS = 4]) the assertion branch is never taken, since a
    system call is made. *)
Theorem shim_width_assertions :
  (forall h L a b m, L <> 8%nat -> modmul_u256 h L a b m = Panic []) /\
  (forall h L a b, L <> 4%nat -> mul_wide_u128 h L a b = Panic []) /\
  (forall h a b m, modmul_u256 h 8 a b m <> Panic []) /\
  (forall h a b, mul_wide_u128 h 4 a b <> Panic []).
Proof.
  repeat split.
  - intros h L a b m HL; unfold modmul_u256, BIGINT_WIDTH_WORDS.
    apply Nat.eqb_neq in HL; rewrite HL; reflexivity.
  - intros h L a b HL; unfold mul_wide_u128.
    change (BIGINT_WIDTH_WORDS / 2)%nat with 4%nat.
    apply Nat.eqb_neq in HL; rewrite HL; reflexivity.
  - intros h a b m; unfold modmul_u256; simpl negb; cbv iota.
    destruct (_ <? _); discriminate.
  - intros h a b; unfold mul_wide_u128; simpl negb; cbv iota; discriminate.
Qed.

Lemma shim_width_assertions_witness :
  modmul_u256 sys_bigint_spec 4 [1] [2] [3] = Panic [] /\
  mul_wide_u128 sys_bigint_spec 8 [1] [2] = Panic [] /\
  modmul_u256 sys_bigint_spec 8 [1] [2] [3] <> Panic [] /\
  mul_wide_u128 sys_bigint_spec 4 [1] [2] <> Panic [].
Proof.
  destruct shim_width_assertions as (H1 & H2 & H3 & H4).
  split; [apply H1; discriminate|].
  split; [apply H2; discriminate|].
  split; [apply H3 | apply H4].
Defined.

Lemma mul_wide_u128_product_witness :
  digits_ok 32 4 [1; 2; 3; 4] /\ digits_ok 32 4 [5; 6; 7; 8] /\
  (exists lo hi,
      mul_wide_u128 sys_bigint_spec 4 [1; 2; 3; 4] [5; 6; 7; 8] =
        Ret [mk_call OP_MULTIPLY ([1; 2; 3; 4] ++ repeat 0 4)
               ([5; 6; 7; 8] ++ repeat 0 4) (repeat 0 8)] (lo, hi) /\
      digits_ok 32 4 lo /\ digits_ok 32 4 hi /\
      le_value 32 lo + le_value 32 hi * 2 ^ 128 =
        le_value 32 [1; 2; 3; 4] * le_value 32 [5; 6; 7; 8]).
Proof.
  assert (Ha : digits_ok 32 4 [1; 2; 3; 4])
    by (split; [reflexivity | repeat constructor; vm_compute; discriminate]).
  assert (Hb : digits_ok 32 4 [5; 6; 7; 8])
    by (split; [reflexivity | repeat constructor; vm_compute; discriminate]).
  split; [exact Ha|]; split; [exact Hb|].
  exact (proj1 (mul_wide_u128_product _ _ Ha Hb)).
Defined.

Import Modular ModularFacts ConstMod ConstModFacts String.

(** C1: on either backend, for every [Uint<LIMBS>] value [x] (also
    [x >= MODULUS]), [Residue::new(x)] returns a reduced residue and
    [retrieve] gives back [x mod MODULUS]; for [x < MODULUS] it gives back
    [x]. *)
Theorem new_retrieve_roundtrip t p x :
  target_ok t -> params_okb (LIMB_BITS t) (LIMBS t) p = true ->
  0 <= x < uint_bound t ->
  exists r, new t p x = Some r /\ canonical p r /\
    retrieve t p r = x mod MODULUS p /\ (x < MODULUS p -> retrieve t p r = x).
Proof.
  intros Ht Hp Hx.
  exists (mk_residue (stored_form t p x)).
  rewrite new_stored by assumption.
  split; [reflexivity|]; split; [apply canonical_stored; assumption|].
  rewrite retrieve_stored by assumption.
  split; [reflexivity|]; intros Hlt; apply Z.mod_small; lia.
Qed.


(** C4 (holds for a modulus above 1): every residue a program can reach
    on either backend stores a value strictly below [MODULUS], and
    [retrieve] of it is below [MODULUS]. *)
Theorem reachable_residues_canonical t p r :
  target_ok t -> params_okb (LIMB_BITS t) (LIMBS t) p = true -> 1 < MODULUS p ->
  reachable t p r ->
  0 <= montgomery_form r < MODULUS p /\ 0 <= retrieve t p r < MODULUS p.
Proof.
  intros Ht Hp H1 Hr.
  assert (Hc : canonical p r) by (apply reachable_canonical with t; assumption).
  split; [exact Hc|].
  apply (canonical_retrieve t p); assumption.
Qed.

(** C6 (amended): for every odd modulus, the flag of [inv_montgomery_form]
    holds iff [gcd(x, MODULUS) = 1]; the value [invert] returns is a reduced
    residue whatever the flag; a found inverse is the inverse of the element:
    [retrieve(inv) * retrieve(x) = 1 mod MODULUS].  For a modulus above 1
    the flag is therefore false for [x = 0], and
    [retrieve(new(a) * inv(new(a))) = 1] for every [a] coprime to the
    modulus. *)
Theorem invert_spec t p :
  target_ok t -> params_okb (LIMB_BITS t) (LIMBS t) p = true ->
  (forall x r3 ninv r_inv,
     snd (inv_montgomery_form t x (MODULUS p) r3 ninv r_inv) = true <->
     Z.gcd x (MODULUS p) = 1) /\
  (1 < MODULUS p ->
   forall r3 ninv r_inv, snd (inv_montgomery_form t 0 (MODULUS p) r3 ninv r_inv) = false) /\
  (forall r, canonical p (fst (invert t p r))) /\
  (forall r, canonical p r -> snd (invert t p r) = true ->
     (retrieve t p (fst (invert t p r)) * retrieve t p r) mod MODULUS p = 1 mod MODULUS p) /\
  (1 < MODULUS p ->
   forall a, 0 <= a < uint_bound t -> Z.gcd a (MODULUS p) = 1 ->
     exists ra ri prod, new t p a = Some ra /\ invert t p ra = (ri, true) /\
       mul t p ra ri = Some prod /\ retrieve t p prod = 1).
Proof.
  intros Ht Hp; pose proof (M_pos t p Hp) as HM0.
  assert (Hflag : forall x r3 ninv r_inv,
     snd (inv_montgomery_form t x (MODULUS p) r3 ninv r_inv) = true <->
     Z.gcd x (MODULUS p) = 1).
  { intros x r3 ninv r_inv; unfold inv_montgomery_form.
    pose proof (inv_odd_mod_spec x (MODULUS p) ltac:(lia)) as (_ & Hf & _).
    destruct (inv_odd_mod x (MODULUS p)) as [c f]; cbn [snd] in Hf.
    destruct (accelerated t); exact Hf. }
  split; [exact Hflag|].
  split.
  { intros H1 r3 ninv r_inv; destruct (snd _) eqn:E; [|reflexivity].
    apply Hflag in E; rewrite Z.gcd_0_l, Z.abs_eq in E; lia. }
  split; [intros r; apply invert_canonical; assumption|].
  split.
  { intros r Hc Hf.
    destruct (canonical_retrieve t p Ht Hp r Hc) as [Hr Er].
    set (x := retrieve t p r) in *; clearbody x; rewrite Er in Hf |- *.
    assert (Hg : Z.gcd x (MODULUS p) = 1) by (apply (invert_found t p); assumption).
    rewrite invert_stored by assumption; cbn [fst].
    rewrite retrieve_stored by assumption.
    destruct (inv_odd_mod_spec x (MODULUS p) ltac:(lia)) as (_ & Hf' & Hi).
    rewrite Z.mul_mod_idemp_l, Hi by (try apply Hf'; lia).
    reflexivity. }
  intros H1 a Ha Hg.
  exists (mk_residue (stored_form t p a)),
    (mk_residue (stored_form t p (fst (inv_odd_mod a (MODULUS p))))),
    (mk_residue (stored_form t p (a * fst (inv_odd_mod a (MODULUS p))))).
  rewrite new_stored, invert_stored, mul_stored, retrieve_stored by assumption.
  split; [reflexivity|]; split; [reflexivity|]; split; [reflexivity|].
  destruct (inv_odd_mod_spec a (MODULUS p) ltac:(lia)) as (_ & Hf' & Hi).
  rewrite Z.mul_comm, Hi by (apply Hf'; exact Hg).
  apply Z.mod_small; lia.
Qed.

(** C7: on either backend, a well-formed encoding (the right number of
    bytes) of a value not below [MODULUS] is rejected with the decode error
    ["montgomery form must be reduced"]; one of a value below [MODULUS]
    decodes, and encoding the result gives back the same bytes. *)
Theorem decode_rejects_and_roundtrips t p bs :
  target_ok t -> params_okb (LIMB_BITS t) (LIMBS t) p = true ->
  List.length bs = nbytes t -> Forall (fun d => 0 <= d < 256) bs ->
  (MODULUS p <= le_value 8 bs ->
     deserialize t p bs = Some (DeErr "montgomery form must be reduced"%string)) /\
  (le_value 8 bs < MODULUS p ->
     exists r, deserialize t p bs = Some (DeOk r) /\ serialize t p r = Some bs).
Proof.
  intros Ht Hp Hl Hb.
  split; [intros Hv; apply deserialize_reject; assumption|].
  intros Hv; eexists; split; [apply deserialize_accept; assumption|].
  rewrite serialize_stored by assumption.
  pose proof (le_value_bound 8 bs ltac:(lia) Hb) as Hv0.
  assert (HM : 0 < MODULUS p) by lia.
  pose proof (R_inv_spec t p Ht Hp) as Hri; unfold cong in Hri.
  rewrite <- Z.mul_assoc, <- Z.mul_mod_idemp_r, Hri, Z.mul_mod_idemp_r, Z.mul_1_r,
    Z.mod_small by lia.
  unfold uint_to_bytes; rewrite <- Hl, to_le_le_value; [reflexivity | lia | exact Hb].
Qed.

(** C8: on either backend, [div_by_2] of a reduced residue [x] is reduced,
    twice its stored value is congruent to that of [x] (it is the stored
    value halved when that is even, and the stored value plus the odd
    modulus, halved exactly, when it is odd), the element it holds doubles
    to that of [x], and [retrieve(new(a).div_by_2()) * 2 mod MODULUS =
    a mod MODULUS] for every [Uint<LIMBS>] value [a]. *)
Theorem div_by_2_halves t p x a :
  target_ok t -> params_okb (LIMB_BITS t) (LIMBS t) p = true ->
  canonical p x -> 0 <= a < uint_bound t ->
  canonical p (div_by_2 p x) /\
  (2 * montgomery_form (div_by_2 p x)) mod MODULUS p = montgomery_form x mod MODULUS p /\
  (Z.odd (montgomery_form x) = false ->
     montgomery_form (div_by_2 p x) = montgomery_form x / 2 /\
     2 * montgomery_form (div_by_2 p x) = montgomery_form x) /\
  (Z.odd (montgomery_form x) = true ->
     montgomery_form (div_by_2 p x) = (montgomery_form x + MODULUS p) / 2 /\
     2 * montgomery_form (div_by_2 p x) = montgomery_form x + MODULUS p) /\
  (retrieve t p (div_by_2 p x) * 2) mod MODULUS p = retrieve t p x mod MODULUS p /\
  (exists r, new t p a = Some r /\
     (retrieve t p (div_by_2 p r) * 2) mod MODULUS p = a mod MODULUS p).
Proof.
  intros Ht Hp Hx Ha.
  destruct (params_okb_spec _ _ _ Hp) as (Hodd & HM & _).
  assert (Helem : forall y, canonical p y ->
            (retrieve t p (div_by_2 p y) * 2) mod MODULUS p = retrieve t p y mod MODULUS p).
  { intros y Hy.
    destruct (canonical_retrieve t p Ht Hp y Hy) as [Hr Ey].
    set (z := retrieve t p y) in *; clearbody z; rewrite Ey.
    rewrite div2_stored, !retrieve_stored by assumption.
    destruct (div_by_2_spec z (MODULUS p) Hodd Hr) as (Hd & Hd2 & _).
    rewrite (Z.mod_small (Modular.div_by_2 _ _)), Z.mul_comm by lia; exact Hd2. }
  assert (Hnew : exists r, new t p a = Some r /\
     (retrieve t p (div_by_2 p r) * 2) mod MODULUS p = a mod MODULUS p).
  { exists (mk_residue (stored_form t p a)); rewrite new_stored by assumption.
    split; [reflexivity|].
    rewrite Helem, retrieve_stored, Zmod_mod by (try apply canonical_stored; assumption).
    reflexivity. }
  pose proof (Helem x Hx) as Hx2.
  destruct (div_by_2_spec (montgomery_form x) (MODULUS p) Hodd Hx) as (Hd & Hd2 & He & Ho).
  unfold div_by_2 in *; cbn [montgomery_form].
  split; [exact Hd|]; split; [exact Hd2|].
  split.
  { intros E; split; [unfold Modular.div_by_2; rewrite E; reflexivity | apply He, E]. }
  split.
  { intros E; split; [unfold Modular.div_by_2; rewrite E; reflexivity | apply Ho, E]. }
  split; [exact Hx2 | exact Hnew].
Qed.

(** C5 (code_bug evidence): on the accelerated path [into_montgomery_form]
    returns its operand unchanged: for [a = MODULUS = 2^255 - 19] it returns
    [a], not [a mod MODULUS = 0], while [Residue::new] on the same path and
    the software [into_montgomery_form] both reduce it to [0]. *)
Lemma into_montgomery_form_unreduced :
  params_okb 32 8 (mk_params (2 ^ 255 - 19) 38 1444 54872 678152731) = true /\
  into_montgomery_form zkvm_target (2 ^ 255 - 19) 1444 (2 ^ 255 - 19) 678152731 38
    = 2 ^ 255 - 19 /\
  (2 ^ 255 - 19) mod (2 ^ 255 - 19) = 0 /\
  new zkvm_target (mk_params (2 ^ 255 - 19) 38 1444 54872 678152731) (2 ^ 255 - 19)
    = Some (mk_residue 0) /\
  into_montgomery_form software_target (2 ^ 255 - 19) 1444 (2 ^ 255 - 19) 678152731 38
    = 0.
Proof. vm_compute; repeat split; reflexivity. Qed.


(** C4 counterexample: for the odd modulus 1 the accelerated [ONE] stores
    [Uint::ONE = 1], which is not below the modulus, and retrieves to [1],
    although [retrieve] is documented to return a reduced value; the
    software [ONE] stores [R = 2^256 mod 1 = 0], which is reduced, and
    retrieves to [0]. *)
Lemma accelerated_one_unreduced :
  params_okb 32 8 (mk_params 1 0 0 0 4294967295) = true /\
  reachable zkvm_target (mk_params 1 0 0 0 4294967295) (ONE zkvm_target (mk_params 1 0 0 0 4294967295)) /\
  ~ (montgomery_form (ONE zkvm_target (mk_params 1 0 0 0 4294967295)) < MODULUS (mk_params 1 0 0 0 4294967295)) /\
  ~ (retrieve zkvm_target (mk_params 1 0 0 0 4294967295) (ONE zkvm_target (mk_params 1 0 0 0 4294967295)) < MODULUS (mk_params 1 0 0 0 4294967295)) /\
  montgomery_form (ONE software_target (mk_params 1 0 0 0 4294967295)) = 0 /\
  retrieve software_target (mk_params 1 0 0 0 4294967295) (ONE software_target (mk_params 1 0 0 0 4294967295)) = 0.
Proof.
  split; [reflexivity|]; split; [apply reach_one|].
  split; [vm_compute; discriminate|]; split; [vm_compute; discriminate|].
  split; vm_compute; reflexivity.
Qed.

(** C6 counterexample: for the odd modulus 1, [inv_montgomery_form] of [0]
    reports an inverse, and for [a = 1] the product of [new(a)] with its
    found inverse retrieves to [0], not [1]. *)
Lemma inverse_flag_at_modulus_one :
  params_okb 32 8 (mk_params 1 0 0 0 4294967295) = true /\
  snd (inv_montgomery_form software_target 0 1 0 4294967295 0) = true /\
  match new software_target (mk_params 1 0 0 0 4294967295) 1 with
  | Some ra =>
      snd (invert software_target (mk_params 1 0 0 0 4294967295) ra) = true /\
      option_map (retrieve software_target (mk_params 1 0 0 0 4294967295))
        (mul software_target (mk_params 1 0 0 0 4294967295) ra
           (fst (invert software_target (mk_params 1 0 0 0 4294967295) ra)))
      = Some 0
  | None => False
  end.
Proof. vm_compute; repeat split; reflexivity. Qed.

Lemma new_retrieve_roundtrip_witness :
  target_ok zkvm_target /\ params_okb 32 8 (mk_params 13 3 9 1 991146299) = true /\
  0 <= 20 < uint_bound zkvm_target /\
  exists r, new zkvm_target (mk_params 13 3 9 1 991146299) 20 = Some r /\
    canonical (mk_params 13 3 9 1 991146299) r /\
    retrieve zkvm_target (mk_params 13 3 9 1 991146299) r = 20 mod 13 /\
    (20 < 13 -> retrieve zkvm_target (mk_params 13 3 9 1 991146299) r = 20).
Proof.
  assert (Ht : target_ok zkvm_target).
  { split; [reflexivity|]; split; [left; reflexivity|]; cbn; split; [lia | auto]. }
  assert (Hp : params_okb 32 8 (mk_params 13 3 9 1 991146299) = true)
    by (vm_compute; reflexivity).
  assert (Hx : 0 <= 20 < uint_bound zkvm_target)
    by (unfold uint_bound; cbn [LIMB_BITS LIMBS zkvm_target];
        change (32 * Z.of_nat 8) with 256; lia).
  split; [exact Ht|]; split; [exact Hp|]; split; [exact Hx|].
  exact (new_retrieve_roundtrip zkvm_target (mk_params 13 3 9 1 991146299) 20 Ht Hp Hx).
Defined.


Lemma reachable_residues_canonical_witness :
  reachable zkvm_target (mk_params 13 3 9 1 991146299)
    (ONE zkvm_target (mk_params 13 3 9 1 991146299)) /\
  0 <= montgomery_form (ONE zkvm_target (mk_params 13 3 9 1 991146299)) < 13 /\
  0 <= retrieve zkvm_target (mk_params 13 3 9 1 991146299)
         (ONE zkvm_target (mk_params 13 3 9 1 991146299)) < 13.
Proof.
  assert (Ht : target_ok zkvm_target).
  { split; [reflexivity|]; split; [left; reflexivity|]; cbn; split; [lia | auto]. }
  assert (Hp : params_okb 32 8 (mk_params 13 3 9 1 991146299) = true)
    by (vm_compute; reflexivity).
  assert (H1 : 1 < MODULUS (mk_params 13 3 9 1 991146299)) by (cbn; lia).
  assert (Hr : reachable zkvm_target (mk_params 13 3 9 1 991146299)
                 (ONE zkvm_target (mk_params 13 3 9 1 991146299))) by apply reach_one.
  split; [exact Hr|].
  exact (reachable_residues_canonical zkvm_target (mk_params 13 3 9 1 991146299)
           _ Ht Hp H1 Hr).
Defined.

Lemma invert_spec_witness :
  target_ok software_target /\ params_okb 32 8 (mk_params 13 3 9 1 991146299) = true /\
  snd (inv_montgomery_form software_target 0 13 1 991146299 4) = false.
Proof.
  assert (Ht : target_ok software_target).
  { split; [reflexivity|]; split; [left; reflexivity|]; cbn; split; [lia | discriminate]. }
  assert (Hp : params_okb 32 8 (mk_params 13 3 9 1 991146299) = true)
    by (vm_compute; reflexivity).
  assert (H1 : 1 < MODULUS (mk_params 13 3 9 1 991146299)) by (cbn; lia).
  split; [exact Ht|]; split; [exact Hp|].
  exact (proj1 (proj2 (invert_spec software_target (mk_params 13 3 9 1 991146299)
           Ht Hp)) H1 1 991146299 4).
Defined.

Lemma decode_rejects_and_roundtrips_witness :
  List.length (to_le 8 32 5) = nbytes zkvm_target /\
  exists r,
    deserialize zkvm_target (mk_params 13 3 9 1 991146299) (to_le 8 32 5) = Some (DeOk r) /\
    serialize zkvm_target (mk_params 13 3 9 1 991146299) r = Some (to_le 8 32 5).
Proof.
  assert (Ht : target_ok zkvm_target).
  { split; [reflexivity|]; split; [left; reflexivity|]; cbn; split; [lia | auto]. }
  assert (Hp : params_okb 32 8 (mk_params 13 3 9 1 991146299) = true)
    by (vm_compute; reflexivity).
  assert (Hl : List.length (to_le 8 32 5) = nbytes zkvm_target) by reflexivity.
  assert (Hb : Forall (fun d => 0 <= d < 256) (to_le 8 32 5)).
  { repeat (constructor; [split; vm_compute; [discriminate | reflexivity] |]); constructor. }
  assert (Hv : le_value 8 (to_le 8 32 5) < MODULUS (mk_params 13 3 9 1 991146299))
    by (vm_compute; reflexivity).
  split; [exact Hl|].
  exact (proj2 (decode_rejects_and_roundtrips zkvm_target (mk_params 13 3 9 1 991146299)
           (to_le 8 32 5) Ht Hp Hl Hb) Hv).
Defined.

Lemma div_by_2_halves_witness :
  canonical (mk_params 13 3 9 1 991146299) (mk_residue 7) /\
  (retrieve software_target (mk_params 13 3 9 1 991146299)
     (div_by_2 (mk_params 13 3 9 1 991146299) (mk_residue 7)) * 2) mod 13 =
  retrieve software_target (mk_params 13 3 9 1 991146299) (mk_residue 7) mod 13.
Proof.
  assert (Ht : target_ok software_target).
  { split; [reflexivity|]; split; [left; reflexivity|]; cbn; split; [lia | discriminate]. }
  assert (Hp : params_okb 32 8 (mk_params 13 3 9 1 991146299) = true)
    by (vm_compute; reflexivity).
  assert (Hc : canonical (mk_params 13 3 9 1 991146299) (mk_residue 7))
    by (unfold canonical; cbn; lia).
  assert (Ha : 0 <= 5 < uint_bound software_target)
    by (unfold uint_bound; cbn [LIMB_BITS LIMBS software_target];
        change (32 * Z.of_nat 8) with 256; lia).
  split; [exact Hc|].
  destruct (div_by_2_halves software_target (mk_params 13 3 9 1 991146299) (mk_residue 7) 5
              Ht Hp Hc Ha) as (_ & _ & _ & _ & H & _).
  exact H.
Defined.

End Claims.

(** ** Further properties of the shim, [repr.rs], [inv.rs] and [Residue] *)
Module Extras.
Import Words WordFacts Risc0 Risc0Facts Modular ModularFacts ConstMod ConstModFacts String.

Lemma to_le_digits bits k v :
  0 < bits -> Forall (fun d => 0 <= d < 2 ^ bits) (to_le bits k v).
Proof.
  intros Hb; revert v; induction k as [|k IH]; intros v; simpl; constructor; auto.
  apply Z.mod_pos_bound, Z.pow_pos_nonneg; lia.
Qed.

Lemma nbytes_bits t :
  target_ok t -> 8 * Z.of_nat (nbytes t) = LIMB_BITS t * Z.of_nat (LIMBS t).
Proof.
  intros (_ & Hb & _); unfold nbytes; rewrite Nat2Z.inj_mul, Z2Nat.id.
  - destruct Hb as [-> | ->]; [change (32 / 8) with 4 | change (64 / 8) with 8]; lia.
  - destruct Hb as [-> | ->]; apply Z.div_pos; lia.
Qed.

(** [modmul_u256] with an all-zero modulus aborts, whatever the host answers:
    no result is below zero. *)
Theorem modmul_u256_zero_modulus_aborts (h : Risc0.host) (L : nat) (a b : list Z) :
  exists calls, modmul_u256 h L a b (repeat 0 8) = Panic calls.
Proof.
  unfold modmul_u256.
  destruct (negb (Nat.eqb L BIGINT_WIDTH_WORDS)); [eauto|].
  destruct (sys_bigint_digits h OP_MULTIPLY a b (repeat 0 8)) as [_ Hd].
  pose proof (le_value_bound 32 _ ltac:(lia) Hd) as Hv.
  rewrite le_value_zeros.
  destruct (Z.ltb_spec (le_value 32 (sys_bigint h OP_MULTIPLY a b (repeat 0 8))) 0);
    [lia | eauto].
Qed.

(** With a host that answers as specified, [modmul_u256] on the words of
    [a], [b] and a nonzero modulus [m] below [2^256] makes one system call
    and returns the words of [a * b mod m]. *)
Theorem modmul_u256_honest a b m :
  0 <= a < 2 ^ 256 -> 0 <= b < 2 ^ 256 -> 0 < m < 2 ^ 256 ->
  modmul_u256 sys_bigint_spec 8 (to_le 32 8 a) (to_le 32 8 b) (to_le 32 8 m) =
  Ret [mk_call OP_MULTIPLY (to_le 32 8 a) (to_le 32 8 b) (to_le 32 8 m)]
      (to_le 32 8 ((a * b) mod m)).
Proof.
  intros Ha Hb Hm.
  assert (Hr : 0 <= (a * b) mod m < m) by (apply Z.mod_pos_bound; lia).
  assert (Hv : sys_bigint sys_bigint_spec OP_MULTIPLY (to_le 32 8 a) (to_le 32 8 b)
                 (to_le 32 8 m) = to_le 32 8 ((a * b) mod m)).
  { unfold sys_bigint, sys_bigint_spec.
    rewrite !le_value_to_le by lia; change (32 * Z.of_nat 8) with 256.
    rewrite (Z.mod_small a), (Z.mod_small b), (Z.mod_small m) by lia.
    destruct (Z.eqb_spec m 0); [lia | reflexivity]. }
  unfold modmul_u256; cbn [negb Nat.eqb BIGINT_WIDTH_WORDS]; cbv zeta.
  rewrite Hv, !le_value_to_le by lia; change (32 * Z.of_nat 8) with 256.
  rewrite (Z.mod_small m), Z.mod_small by lia.
  destruct (Z.ltb_spec ((a * b) mod m) m); [reflexivity | lia].
Qed.

(** [into_montgomery_form] with the constants of a modulus: on the
    accelerated path it returns [a] itself; otherwise it returns the reduced
    Montgomery form [a * R mod MODULUS].  The [_r] argument is never read. *)
Theorem into_montgomery_form_spec t p a r :
  target_ok t -> params_okb (LIMB_BITS t) (LIMBS t) p = true ->
  0 <= a < uint_bound t ->
  into_montgomery_form t a (R2 p) (MODULUS p) (MOD_NEG_INV p) r =
  if accelerated t then a else (a * R p) mod MODULUS p.
Proof.
  intros Ht Hp Ha.
  destruct (accelerated t) eqn:Hacc; unfold into_montgomery_form; rewrite Hacc;
    [reflexivity|].
  pose proof (new_stored t p Ht Hp a Ha) as Hn.
  unfold new, stored_form, scale in Hn; rewrite Hacc in Hn.
  injection Hn as Hn; exact Hn.
Qed.

(** [from_montgomery_form] with the constants of a modulus: on the
    accelerated path it returns its argument; otherwise, for every [Uint]
    value [m], it returns the reduced value [m * R^-1 mod MODULUS].  The
    [_r_inv] argument is never read. *)
Theorem from_montgomery_form_spec t p m r_inv :
  target_ok t -> params_okb (LIMB_BITS t) (LIMBS t) p = true ->
  0 <= m < uint_bound t ->
  from_montgomery_form t m (MODULUS p) (MOD_NEG_INV p) r_inv =
  if accelerated t then m
  else (m * fst (inv_odd_mod (R p) (MODULUS p))) mod MODULUS p.
Proof.
  intros Ht Hp Hm.
  pose proof (M_pos t p Hp) as HM; pose proof (bound_pos t Ht) as HU.
  destruct (accelerated t) eqn:Hacc; unfold from_montgomery_form; rewrite Hacc;
    [reflexivity|].
  apply (redc_eq t p Ht Hp); [nia | apply Z.mod_pos_bound; lia |].
  rewrite Z.mul_0_l, Z.add_0_r, cong_mod, <- (R_cong t p Hp).
  pose proof (R_inv_spec t p Ht Hp) as Hri.
  rewrite <- Z.mul_assoc, Hri; unfold cong; f_equal; ring.
Qed.

(** [from_montgomery_form] undoes [into_montgomery_form]: on the software
    path [from(into(a)) = a mod MODULUS] for every [Uint] value [a] and
    [into(from(m)) = m] for every reduced [m]; on the accelerated path both
    are the identity. *)
Theorem montgomery_form_roundtrip t p a m r r_inv :
  target_ok t -> params_okb (LIMB_BITS t) (LIMBS t) p = true ->
  0 <= a < uint_bound t -> 0 <= m < MODULUS p ->
  from_montgomery_form t (into_montgomery_form t a (R2 p) (MODULUS p) (MOD_NEG_INV p) r)
    (MODULUS p) (MOD_NEG_INV p) r_inv = (if accelerated t then a else a mod MODULUS p) /\
  into_montgomery_form t (from_montgomery_form t m (MODULUS p) (MOD_NEG_INV p) r_inv)
    (R2 p) (MODULUS p) (MOD_NEG_INV p) r = m.
Proof.
  intros Ht Hp Ha Hm.
  destruct (params_okb_spec _ _ _ Hp) as (_ & HMU & _).
  change (2 ^ (LIMB_BITS t * Z.of_nat (LIMBS t))) with (uint_bound t) in HMU.
  pose proof (R_inv_spec t p Ht Hp) as Hri.
  split.
  - rewrite (into_montgomery_form_spec t p a r Ht Hp Ha).
    destruct (accelerated t) eqn:Hacc.
    + unfold from_montgomery_form; rewrite Hacc; reflexivity.
    + assert (Hx : 0 <= (a * R p) mod MODULUS p < uint_bound t)
        by (pose proof (Z.mod_pos_bound (a * R p) (MODULUS p)); lia).
      rewrite (from_montgomery_form_spec t p _ r_inv Ht Hp Hx), Hacc.
      change (cong (MODULUS p) ((a * R p) mod MODULUS p * fst (inv_odd_mod (R p) (MODULUS p)))
                a).
      rewrite cong_mod, <- Z.mul_assoc, (Z.mul_comm (R p)), Hri, Z.mul_1_r; reflexivity.
  - rewrite (from_montgomery_form_spec t p m r_inv Ht Hp ltac:(lia)).
    destruct (accelerated t) eqn:Hacc.
    + unfold into_montgomery_form; rewrite Hacc; reflexivity.
    + set (v := (m * fst (inv_odd_mod (R p) (MODULUS p))) mod MODULUS p).
      assert (Hv : 0 <= v < uint_bound t)
        by (pose proof (Z.mod_pos_bound (m * fst (inv_odd_mod (R p) (MODULUS p)))
                          (MODULUS p)); lia).
      rewrite (into_montgomery_form_spec t p v r Ht Hp Hv), Hacc.
      apply cong_small with (MODULUS p); [apply Z.mod_pos_bound; lia | lia |].
      change (cong (MODULUS p) ((v * R p) mod MODULUS p) m).
      rewrite cong_mod; unfold v.
      rewrite cong_mod, <- Z.mul_assoc, Hri, Z.mul_1_r; reflexivity.
Qed.

(** [inv_montgomery_form] with the constants of a modulus: the flag it
    returns for any input [x] is set iff [x] is coprime to the modulus, on
    either backend; and on the representation of an element [a] coprime to
    the modulus (the value itself on the accelerated path, its Montgomery
    form otherwise) it returns the representation of an inverse of [a]. *)
Theorem inv_montgomery_form_represents_inverse t p x a :
  target_ok t -> params_okb (LIMB_BITS t) (LIMBS t) p = true ->
  Z.gcd a (MODULUS p) = 1 ->
  (snd (inv_montgomery_form t x (MODULUS p) (R3 p) (MOD_NEG_INV p)
          (fst (inv_odd_mod (R p) (MODULUS p)))) = true <-> Z.gcd x (MODULUS p) = 1) /\
  inv_montgomery_form t (stored_form t p a) (MODULUS p) (R3 p) (MOD_NEG_INV p)
    (fst (inv_odd_mod (R p) (MODULUS p))) =
  (stored_form t p (fst (inv_odd_mod a (MODULUS p))), true) /\
  (fst (inv_odd_mod a (MODULUS p)) * a) mod MODULUS p = 1 mod MODULUS p.
Proof.
  intros Ht Hp Hg.
  pose proof (M_pos t p Hp) as HM.
  split.
  - destruct (inv_odd_mod_spec x (MODULUS p) HM) as (_ & Hf & _).
    unfold inv_montgomery_form.
    destruct (inv_odd_mod x (MODULUS p)) as [c f]; cbn [snd] in Hf.
    destruct (accelerated t); exact Hf.
  - pose proof (invert_stored t p Ht Hp a Hg) as Hi.
    unfold invert in Hi; cbn [montgomery_form] in Hi.
    destruct (inv_montgomery_form _ _ _ _ _ _) as [v f]; injection Hi as -> ->.
    split; [reflexivity|].
    destruct (inv_odd_mod_spec a (MODULUS p) HM) as (_ & Hf & Hx); apply Hx, Hf, Hg.
Qed.

(** [ONE] and [ZERO] retrieve to [1] and [0] on either backend, for a
    modulus above 1. *)
Theorem one_zero_retrieve t p :
  target_ok t -> params_okb (LIMB_BITS t) (LIMBS t) p = true -> 1 < MODULUS p ->
  retrieve t p (ONE t p) = 1 /\ retrieve t p ZERO = 0.
Proof.
  intros Ht Hp H1.
  rewrite (one_stored t p Hp H1), (zero_stored t p Hp), !(retrieve_stored t p Ht Hp).
  split; apply Z.mod_small; lia.
Qed.

(** [Residue::new] only depends on its input modulo [MODULUS], and [ct_eq]
    of two new residues holds iff their inputs are congruent, on either
    backend. *)
Theorem new_congruent_inputs t p x y :
  target_ok t -> params_okb (LIMB_BITS t) (LIMBS t) p = true ->
  0 <= x < uint_bound t -> 0 <= y < uint_bound t ->
  exists rx ry, new t p x = Some rx /\ new t p y = Some ry /\
    ct_eq rx ry = (x mod MODULUS p =? y mod MODULUS p) /\
    (x mod MODULUS p = y mod MODULUS p -> rx = ry).
Proof.
  intros Ht Hp Hx Hy.
  rewrite (new_stored t p Ht Hp x Hx), (new_stored t p Ht Hp y Hy).
  do 2 eexists; split; [reflexivity|]; split; [reflexivity|].
  split.
  - unfold ct_eq; cbn [montgomery_form].
    destruct (Z.eqb_spec (stored_form t p x) (stored_form t p y)) as [E|E];
      destruct (Z.eqb_spec (x mod MODULUS p) (y mod MODULUS p)) as [E'|E']; auto.
    + exfalso; apply E'; apply (stored_inj t p Ht Hp); exact E.
    + exfalso; apply E; apply (stored_inj t p Ht Hp); exact E'.
  - intros E; f_equal; apply (stored_inj t p Ht Hp); exact E.
Qed.

(** For reduced residues, [ct_eq] (which compares the stored values) holds
    iff the residues retrieve to the same value, on either backend. *)
Theorem ct_eq_retrieve t p a b :
  target_ok t -> params_okb (LIMB_BITS t) (LIMBS t) p = true ->
  canonical p a -> canonical p b ->
  ct_eq a b = (retrieve t p a =? retrieve t p b).
Proof.
  intros Ht Hp Ha Hb.
  destruct (canonical_retrieve t p Ht Hp a Ha) as [Hra Ea].
  destruct (canonical_retrieve t p Ht Hp b Hb) as [Hrb Eb].
  set (xa := retrieve t p a) in *; set (xb := retrieve t p b) in *.
  clearbody xa xb; subst a b.
  unfold ct_eq; cbn [montgomery_form].
  destruct (Z.eqb_spec (stored_form t p xa) (stored_form t p xb)) as [E|E];
    destruct (Z.eqb_spec xa xb) as [E'|E']; auto.
  - exfalso; apply E'; apply cong_small with (MODULUS p); auto.
    apply (stored_inj t p Ht Hp); exact E.
  - exfalso; apply E; rewrite E'; reflexivity.
Qed.

(** Encoding then decoding a reduced residue gives it back, on either
    backend: [serialize] emits [nbytes] bytes that [deserialize] accepts and
    maps to the same residue. *)
Theorem serialize_deserialize_roundtrip t p r :
  target_ok t -> params_okb (LIMB_BITS t) (LIMBS t) p = true -> canonical p r ->
  exists bs, serialize t p r = Some bs /\ List.length bs = nbytes t /\
    deserialize t p bs = Some (DeOk r).
Proof.
  intros Ht Hp Hr.
  pose proof (M_pos t p Hp) as HM.
  destruct (params_okb_spec _ _ _ Hp) as (_ & HMU & _).
  destruct (canonical_retrieve t p Ht Hp r Hr) as [_ Er].
  set (x := retrieve t p r) in *; clearbody x; subst r.
  rewrite (serialize_stored t p Ht Hp x).
  set (v := (x * R p) mod MODULUS p).
  assert (Hv : 0 <= v < MODULUS p) by (apply Z.mod_pos_bound; lia).
  eexists; split; [reflexivity|].
  assert (Hl : List.length (uint_to_bytes t v) = nbytes t) by apply length_to_le.
  split; [exact Hl|].
  assert (Hb : Forall (fun d => 0 <= d < 256) (uint_to_bytes t v))
    by (apply (to_le_digits 8); lia).
  assert (Hval : le_value 8 (uint_to_bytes t v) = v).
  { unfold uint_to_bytes; rewrite le_value_to_le, nbytes_bits by (auto; lia).
    apply Z.mod_small; lia. }
  rewrite (deserialize_accept t p Ht Hp _ Hl Hb) by lia.
  rewrite Hval; do 3 f_equal; apply (stored_eq t p).
  pose proof (R_inv_spec t p Ht Hp) as Hri.
  unfold v; rewrite cong_mod, <- Z.mul_assoc, (Z.mul_comm (R p)), Hri, Z.mul_1_r;
    reflexivity.
Qed.

(** A decoded residue stands for the decoded Montgomery form [v] divided by
    [R] on either backend: it retrieves to [v * R^-1 mod MODULUS], and
    multiplying that by [R] gives [v] back. *)
Theorem deserialize_value t p bs r :
  target_ok t -> params_okb (LIMB_BITS t) (LIMBS t) p = true ->
  deserialize t p bs = Some (DeOk r) ->
  le_value 8 bs < MODULUS p /\
  retrieve t p r = (le_value 8 bs * fst (inv_odd_mod (R p) (MODULUS p))) mod MODULUS p /\
  (retrieve t p r * R p) mod MODULUS p = le_value 8 bs.
Proof.
  intros Ht Hp Hd.
  pose proof (M_pos t p Hp) as HM.
  pose proof (decode_eval t p Ht Hp bs) as E; rewrite Hd in E.
  destruct (uint_from_bytes t bs) as [v|] eqn:U; [|discriminate].
  destruct (uint_from_bytes_inv t bs v U) as (_ & Hb & ->).
  pose proof (le_value_bound 8 bs ltac:(lia) Hb) as Hv0.
  destruct (Z.ltb_spec (le_value 8 bs) (MODULUS p)); [|discriminate].
  injection E as ->.
  rewrite (retrieve_stored t p Ht Hp).
  split; [assumption|]; split; [reflexivity|].
  pose proof (R_inv_spec t p Ht Hp) as Hri.
  transitivity (le_value 8 bs mod MODULUS p); [|apply Z.mod_small; lia].
  change (cong (MODULUS p) ((le_value 8 bs * fst (inv_odd_mod (R p) (MODULUS p)))
            mod MODULUS p * R p) (le_value 8 bs)).
  rewrite cong_mod, <- Z.mul_assoc, Hri, Z.mul_1_r; reflexivity.
Qed.

(** Witnesses: the theorems above at the modulus 13 with 8 limbs of 32 bits. *)
Lemma modmul_u256_honest_witness :
  (0 <= 5 < 2 ^ 256 /\ 0 <= 7 < 2 ^ 256 /\ 0 < 13 < 2 ^ 256) /\
  modmul_u256 sys_bigint_spec 8 (to_le 32 8 5) (to_le 32 8 7) (to_le 32 8 13) =
  Ret [mk_call OP_MULTIPLY (to_le 32 8 5) (to_le 32 8 7) (to_le 32 8 13)]
      (to_le 32 8 ((5 * 7) mod 13)).
Proof. split; [lia | apply modmul_u256_honest; lia]. Defined.

Lemma into_montgomery_form_spec_witness :
  target_ok software_target /\ params_okb 32 8 (mk_params 13 3 9 1 991146299) = true /\
  0 <= 20 < uint_bound software_target /\
  into_montgomery_form software_target 20 (R2 (mk_params 13 3 9 1 991146299)) (MODULUS (mk_params 13 3 9 1 991146299))
    (MOD_NEG_INV (mk_params 13 3 9 1 991146299)) 0 =
  (if accelerated software_target then 20 else (20 * R (mk_params 13 3 9 1 991146299)) mod MODULUS (mk_params 13 3 9 1 991146299)).
Proof.
  assert (Ht : target_ok software_target) by exact software_target_ok.
  assert (Hp : params_okb 32 8 (mk_params 13 3 9 1 991146299) = true) by (vm_compute; reflexivity).
  assert (Ha : 0 <= 20 < uint_bound software_target)
    by (unfold uint_bound; cbn [LIMB_BITS LIMBS software_target];
        change (32 * Z.of_nat 8) with 256; lia).
  split; [exact Ht|]; split; [exact Hp|]; split; [exact Ha|].
  exact (into_montgomery_form_spec software_target (mk_params 13 3 9 1 991146299) 20 0 Ht Hp Ha).
Defined.

Lemma from_montgomery_form_spec_witness :
  target_ok software_target /\ params_okb 32 8 (mk_params 13 3 9 1 991146299) = true /\
  0 <= 20 < uint_bound software_target /\
  from_montgomery_form software_target 20 (MODULUS (mk_params 13 3 9 1 991146299)) (MOD_NEG_INV (mk_params 13 3 9 1 991146299)) 9 =
  (if accelerated software_target then 20
   else (20 * fst (inv_odd_mod (R (mk_params 13 3 9 1 991146299)) (MODULUS (mk_params 13 3 9 1 991146299)))) mod MODULUS (mk_params 13 3 9 1 991146299)).
Proof.
  assert (Ht : target_ok software_target) by exact software_target_ok.
  assert (Hp : params_okb 32 8 (mk_params 13 3 9 1 991146299) = true) by (vm_compute; reflexivity).
  assert (Ha : 0 <= 20 < uint_bound software_target)
    by (unfold uint_bound; cbn [LIMB_BITS LIMBS software_target];
        change (32 * Z.of_nat 8) with 256; lia).
  split; [exact Ht|]; split; [exact Hp|]; split; [exact Ha|].
  exact (from_montgomery_form_spec software_target (mk_params 13 3 9 1 991146299) 20 9 Ht Hp Ha).
Defined.

Lemma montgomery_form_roundtrip_witness :
  target_ok software_target /\ params_okb 32 8 (mk_params 13 3 9 1 991146299) = true /\
  0 <= 20 < uint_bound software_target /\ 0 <= 5 < MODULUS (mk_params 13 3 9 1 991146299) /\
  from_montgomery_form software_target
    (into_montgomery_form software_target 20 (R2 (mk_params 13 3 9 1 991146299)) (MODULUS (mk_params 13 3 9 1 991146299))
       (MOD_NEG_INV (mk_params 13 3 9 1 991146299)) 0) (MODULUS (mk_params 13 3 9 1 991146299)) (MOD_NEG_INV (mk_params 13 3 9 1 991146299)) 9 =
  (if accelerated software_target then 20 else 20 mod MODULUS (mk_params 13 3 9 1 991146299)) /\
  into_montgomery_form software_target
    (from_montgomery_form software_target 5 (MODULUS (mk_params 13 3 9 1 991146299)) (MOD_NEG_INV (mk_params 13 3 9 1 991146299)) 9)
    (R2 (mk_params 13 3 9 1 991146299)) (MODULUS (mk_params 13 3 9 1 991146299)) (MOD_NEG_INV (mk_params 13 3 9 1 991146299)) 0 = 5.
Proof.
  assert (Ht : target_ok software_target) by exact software_target_ok.
  assert (Hp : params_okb 32 8 (mk_params 13 3 9 1 991146299) = true) by (vm_compute; reflexivity).
  assert (Ha : 0 <= 20 < uint_bound software_target)
    by (unfold uint_bound; cbn [LIMB_BITS LIMBS software_target];
        change (32 * Z.of_nat 8) with 256; lia).
  assert (Hm : 0 <= 5 < MODULUS (mk_params 13 3 9 1 991146299)) by (cbn; lia).
  split; [exact Ht|]; split; [exact Hp|]; split; [exact Ha|]; split; [exact Hm|].
  exact (montgomery_form_roundtrip software_target (mk_params 13 3 9 1 991146299) 20 5 0 9 Ht Hp Ha Hm).
Defined.

Lemma inv_montgomery_form_represents_inverse_witness :
  target_ok software_target /\ params_okb 32 8 (mk_params 13 3 9 1 991146299) = true /\
  Z.gcd 5 (MODULUS (mk_params 13 3 9 1 991146299)) = 1 /\
  (snd (inv_montgomery_form software_target 0 (MODULUS (mk_params 13 3 9 1 991146299)) (R3 (mk_params 13 3 9 1 991146299))
          (MOD_NEG_INV (mk_params 13 3 9 1 991146299)) (fst (inv_odd_mod (R (mk_params 13 3 9 1 991146299)) (MODULUS (mk_params 13 3 9 1 991146299))))) = true <->
   Z.gcd 0 (MODULUS (mk_params 13 3 9 1 991146299)) = 1) /\
  inv_montgomery_form software_target (stored_form software_target (mk_params 13 3 9 1 991146299) 5)
    (MODULUS (mk_params 13 3 9 1 991146299)) (R3 (mk_params 13 3 9 1 991146299)) (MOD_NEG_INV (mk_params 13 3 9 1 991146299))
    (fst (inv_odd_mod (R (mk_params 13 3 9 1 991146299)) (MODULUS (mk_params 13 3 9 1 991146299)))) =
  (stored_form software_target (mk_params 13 3 9 1 991146299) (fst (inv_odd_mod 5 (MODULUS (mk_params 13 3 9 1 991146299)))), true) /\
  (fst (inv_odd_mod 5 (MODULUS (mk_params 13 3 9 1 991146299))) * 5) mod MODULUS (mk_params 13 3 9 1 991146299) = 1 mod MODULUS (mk_params 13 3 9 1 991146299).
Proof.
  assert (Ht : target_ok software_target) by exact software_target_ok.
  assert (Hp : params_okb 32 8 (mk_params 13 3 9 1 991146299) = true) by (vm_compute; reflexivity).
  assert (Hg : Z.gcd 5 (MODULUS (mk_params 13 3 9 1 991146299)) = 1) by reflexivity.
  split; [exact Ht|]; split; [exact Hp|]; split; [exact Hg|].
  exact (inv_montgomery_form_represents_inverse software_target (mk_params 13 3 9 1 991146299) 0 5 Ht Hp Hg).
Defined.

Lemma one_zero_retrieve_witness :
  target_ok zkvm_target /\ params_okb 32 8 (mk_params 13 3 9 1 991146299) = true /\ 1 < MODULUS (mk_params 13 3 9 1 991146299) /\
  retrieve zkvm_target (mk_params 13 3 9 1 991146299) (ONE zkvm_target (mk_params 13 3 9 1 991146299)) = 1 /\
  retrieve zkvm_target (mk_params 13 3 9 1 991146299) ZERO = 0.
Proof.
  assert (Ht : target_ok zkvm_target) by exact zkvm_target_ok.
  assert (Hp : params_okb 32 8 (mk_params 13 3 9 1 991146299) = true) by (vm_compute; reflexivity).
  assert (H1 : 1 < MODULUS (mk_params 13 3 9 1 991146299)) by (cbn; lia).
  split; [exact Ht|]; split; [exact Hp|]; split; [exact H1|].
  exact (one_zero_retrieve zkvm_target (mk_params 13 3 9 1 991146299) Ht Hp H1).
Defined.

Lemma new_congruent_inputs_witness :
  target_ok software_target /\ params_okb 32 8 (mk_params 13 3 9 1 991146299) = true /\
  0 <= 20 < uint_bound software_target /\ 0 <= 7 < uint_bound software_target /\
  exists rx ry, new software_target (mk_params 13 3 9 1 991146299) 20 = Some rx /\
    new software_target (mk_params 13 3 9 1 991146299) 7 = Some ry /\
    ct_eq rx ry = (20 mod MODULUS (mk_params 13 3 9 1 991146299) =? 7 mod MODULUS (mk_params 13 3 9 1 991146299)) /\
    (20 mod MODULUS (mk_params 13 3 9 1 991146299) = 7 mod MODULUS (mk_params 13 3 9 1 991146299) -> rx = ry).
Proof.
  assert (Ht : target_ok software_target) by exact software_target_ok.
  assert (Hp : params_okb 32 8 (mk_params 13 3 9 1 991146299) = true) by (vm_compute; reflexivity).
  assert (Hx : 0 <= 20 < uint_bound software_target)
    by (unfold uint_bound; cbn [LIMB_BITS LIMBS software_target];
        change (32 * Z.of_nat 8) with 256; lia).
  assert (Hy : 0 <= 7 < uint_bound software_target)
    by (unfold uint_bound; cbn [LIMB_BITS LIMBS software_target];
        change (32 * Z.of_nat 8) with 256; lia).
  split; [exact Ht|]; split; [exact Hp|]; split; [exact Hx|]; split; [exact Hy|].
  exact (new_congruent_inputs software_target (mk_params 13 3 9 1 991146299) 20 7 Ht Hp Hx Hy).
Defined.

Lemma ct_eq_retrieve_witness :
  target_ok software_target /\ params_okb 32 8 (mk_params 13 3 9 1 991146299) = true /\
  canonical (mk_params 13 3 9 1 991146299) (mk_residue 3) /\ canonical (mk_params 13 3 9 1 991146299) (mk_residue 10) /\
  ct_eq (mk_residue 3) (mk_residue 10) =
  (retrieve software_target (mk_params 13 3 9 1 991146299) (mk_residue 3) =?
   retrieve software_target (mk_params 13 3 9 1 991146299) (mk_residue 10)).
Proof.
  assert (Ht : target_ok software_target) by exact software_target_ok.
  assert (Hp : params_okb 32 8 (mk_params 13 3 9 1 991146299) = true) by (vm_compute; reflexivity).
  assert (Ha : canonical (mk_params 13 3 9 1 991146299) (mk_residue 3)) by (unfold canonical; cbn; lia).
  assert (Hb : canonical (mk_params 13 3 9 1 991146299) (mk_residue 10)) by (unfold canonical; cbn; lia).
  split; [exact Ht|]; split; [exact Hp|]; split; [exact Ha|]; split; [exact Hb|].
  exact (ct_eq_retrieve software_target (mk_params 13 3 9 1 991146299) _ _ Ht Hp Ha Hb).
Defined.

Lemma serialize_deserialize_roundtrip_witness :
  target_ok zkvm_target /\ params_okb 32 8 (mk_params 13 3 9 1 991146299) = true /\
  canonical (mk_params 13 3 9 1 991146299) (mk_residue 5) /\
  exists bs, serialize zkvm_target (mk_params 13 3 9 1 991146299) (mk_residue 5) = Some bs /\
    List.length bs = nbytes zkvm_target /\
    deserialize zkvm_target (mk_params 13 3 9 1 991146299) bs = Some (DeOk (mk_residue 5)).
Proof.
  assert (Ht : target_ok zkvm_target) by exact zkvm_target_ok.
  assert (Hp : params_okb 32 8 (mk_params 13 3 9 1 991146299) = true) by (vm_compute; reflexivity).
  assert (Hr : canonical (mk_params 13 3 9 1 991146299) (mk_residue 5)) by (unfold canonical; cbn; lia).
  split; [exact Ht|]; split; [exact Hp|]; split; [exact Hr|].
  exact (serialize_deserialize_roundtrip zkvm_target (mk_params 13 3 9 1 991146299) _ Ht Hp Hr).
Defined.

Lemma deserialize_value_witness :
  target_ok zkvm_target /\ params_okb 32 8 (mk_params 13 3 9 1 991146299) = true /\
  deserialize zkvm_target (mk_params 13 3 9 1 991146299) (5 :: repeat 0 31) = Some (DeOk (mk_residue 6)) /\
  le_value 8 (5 :: repeat 0 31) < MODULUS (mk_params 13 3 9 1 991146299) /\
  retrieve zkvm_target (mk_params 13 3 9 1 991146299) (mk_residue 6) =
    (le_value 8 (5 :: repeat 0 31) * fst (inv_odd_mod (R (mk_params 13 3 9 1 991146299)) (MODULUS (mk_params 13 3 9 1 991146299))))
      mod MODULUS (mk_params 13 3 9 1 991146299) /\
  (retrieve zkvm_target (mk_params 13 3 9 1 991146299) (mk_residue 6) * R (mk_params 13 3 9 1 991146299)) mod MODULUS (mk_params 13 3 9 1 991146299) =
    le_value 8 (5 :: repeat 0 31).
Proof.
  assert (Ht : target_ok zkvm_target) by exact zkvm_target_ok.
  assert (Hp : params_okb 32 8 (mk_params 13 3 9 1 991146299) = true) by (vm_compute; reflexivity).
  assert (Hd : deserialize zkvm_target (mk_params 13 3 9 1 991146299) (5 :: repeat 0 31) =
               Some (DeOk (mk_residue 6))) by (vm_compute; reflexivity).
  split; [exact Ht|]; split; [exact Hp|]; split; [exact Hd|].
  exact (deserialize_value zkvm_target (mk_params 13 3 9 1 991146299) _ _ Ht Hp Hd).
Defined.

End Extras.
